(** * asio cancellation signals, slots and states

    A shallow embedding of [asio/cancellation_signal.hpp]: the type-erased
    handler box ([detail::cancellation_handler]), [cancellation_signal],
    [cancellation_slot] and [cancellation_state], over an explicit store
    (caller-owned signal objects plus the free store used by
    [::operator new] / [::operator delete]).

    - Pointers are kept as pointers: a slot holds the address of a signal's
      [handler_] member, a state holds the address of the [impl] inside the
      handler object it installed, and both go through the store at every
      use.  A use of a pointer to something that is no longer there is
      [Undefined].
    - The code runs in a state and error monad; [std::bad_alloc] and an
      exception of a handler's constructor are [Throw], a failed [assert] is
      [AssertFail].
    - [emit()] and [destroy()] call each other through handlers that contain
      signals, so they are defined by recursion on a bound [fuel] on the
      depth of nested calls; the theorems give the result for every bound
      that is large enough.
    - The store keeps a [trace] of the calls made, which no code reads. *)

From stdpp Require Import gmap list.

#[local] Set Warnings "-clear-no-such-hyp".

(** ** Data model *)

(** A non-null address of a block of the free store.  A [void*] or a
    [cancellation_handler_base*] is an [option addr]; [None] is the null
    pointer. *)
Abbreviation addr := positive (only parsing).

(** The address of a [cancellation_signal::handler_] member, which is what a
    [cancellation_slot] stores ([cancellation_handler_base**]).  The signal is
    either an object the caller owns, named by a number, or the [signal_]
    member of the [cancellation_state::impl] held by the handler object in
    the block at [a]. *)
Inductive loc : Type :=
  | LSig (n : nat)
  | LImpl (a : addr).

#[global] Instance loc_eq_dec : EqDecision loc.
Proof. solve_decision. Defined.

(** The [Handler] template argument of [cancellation_handler<Handler>].
    [Impl] is [cancellation_state::impl], with its members [signal_] (reduced
    to the signal's only member [handler_]) and [cancelled_].  [User] stands
    for any other function object; it is opaque, and its invocation is
    observed in the trace. *)
Inductive handler : Type :=
  | Impl (signal_ : option addr) (cancelled_ : bool)
  | User (id : nat).

#[global] Instance handler_eq_dec : EqDecision handler.
Proof. solve_decision. Defined.

(** [detail::cancellation_handler<Handler>]. *)
Record cancellation_handler : Type := CancellationHandler {
  handler_ : handler;
  size_ : N
}.

(** A block obtained from [::operator new(blk_size)].  [blk_obj] is the handler
    object living in it, [None] between [destroy()] and the next placement
    [new] or [::operator delete]. *)
Record block : Type := Block {
  blk_size : N;
  blk_obj : option cancellation_handler
}.

(** What the code does, in order. *)
Inductive event : Type :=
  | EvEmit (l : loc)               (* cancellation_signal::emit() on the signal at l *)
  | EvCall (a : addr)              (* handler_->call() on the object at a *)
  | EvDestroy (a : addr)           (* handler_->destroy() on the object at a *)
  | EvNew (a : addr) (size : N)    (* ::operator new(size) returned a *)
  | EvDelete (a : addr).           (* ::operator delete(a), a not null *)

#[global] Instance event_eq_dec : EqDecision event.
Proof. solve_decision. Defined.

(** The store.  [signals] holds the [handler_] member of every live
    caller-owned signal; [heap] is the free store; [oracle] says, for each
    coming call of [::operator new], whether it throws [std::bad_alloc]
    ([true]), an exhausted oracle meaning success; [trace] is the record of
    what has been done. *)
Record machine : Type := Machine {
  signals : gmap nat (option addr);
  heap : gmap addr block;
  oracle : list bool;
  trace : list event
}.

Definition init : machine := Machine ∅ ∅ [] [].

Inductive exn : Type :=
  | BadAlloc          (* thrown by ::operator new *)
  | HandlerCtor.      (* thrown by the Handler's constructor *)

(** The result of running a piece of code.  An exception leaves the store as
    it was when the exception left the code. *)
Inductive outcome (A : Type) : Type :=
  | Ok (a : A) (m : machine)
  | Throw (e : exn) (m : machine)
  | AssertFail              (* assert(...) failed *)
  | Undefined               (* use of a dangling or null pointer *)
  | OutOfFuel.
Arguments Ok {A} a m.
Arguments Throw {A} e m.
Arguments AssertFail {A}.
Arguments Undefined {A}.
Arguments OutOfFuel {A}.

Definition M (A : Type) : Type := machine → outcome A.

Definition ret {A} (a : A) : M A := λ m, Ok a m.

Definition bind {A B} (c : M A) (k : A → M B) : M B := λ m,
  match c m with
  | Ok a m' => k a m'
  | Throw e m' => Throw e m'
  | AssertFail => AssertFail
  | Undefined => Undefined
  | OutOfFuel => OutOfFuel
  end.

Notation "'let*' x ':=' c 'in' k" := (bind c (λ x, k))
  (at level 10, x name, c at level 100, k at level 200, only parsing).

Definition throw {A} (e : exn) : M A := λ m, Throw e m.
Definition undefined {A} : M A := λ _, Undefined.

(** ** The store's primitives *)

Definition record (e : event) (m : machine) : machine :=
  Machine (signals m) (heap m) (oracle m) (trace m ++ [e]).

Definition set_heap (h : gmap addr block) (m : machine) : machine :=
  Machine (signals m) h (oracle m) (trace m).

Definition set_signals (s : gmap nat (option addr)) (m : machine) : machine :=
  Machine s (heap m) (oracle m) (trace m).

(** The live handler object at [a]. *)
Definition object_at (a : addr) (m : machine) : option cancellation_handler :=
  b ← heap m !! a; blk_obj b.

Definition handler_at (a : addr) (m : machine) : option handler :=
  handler_ <$> object_at a m.

(** [*handler_] for a slot's pointer [l]: [None] when [l] dangles. *)
Definition load (l : loc) (m : machine) : option (option addr) :=
  match l with
  | LSig n => signals m !! n
  | LImpl a =>
      match handler_at a m with
      | Some (Impl s _) => Some s
      | _ => None
      end
  end.

Definition set_signal_ (v : option addr) (b : block) : block :=
  match blk_obj b with
  | Some (CancellationHandler (Impl _ c) sz) =>
      Block (blk_size b) (Some (CancellationHandler (Impl v c) sz))
  | _ => b
  end.

(** The store after [*handler_ = v] through [l]. *)
Definition write (l : loc) (v : option addr) (m : machine) : machine :=
  match l with
  | LSig n => set_signals (<[n := v]> (signals m)) m
  | LImpl a => set_heap (alter (set_signal_ v) a (heap m)) m
  end.

(** [*handler_ = v]. *)
Definition store (l : loc) (v : option addr) : M unit := λ m,
  match load l m with
  | None => Undefined
  | Some _ => Ok tt (write l v m)
  end.

Definition set_cancelled_ (b : block) : block :=
  match blk_obj b with
  | Some (CancellationHandler (Impl s _) sz) =>
      Block (blk_size b) (Some (CancellationHandler (Impl s true) sz))
  | _ => b
  end.

(** The store after [cancelled_ = true] in the [impl] at [a]. *)
Definition cancel_at (a : addr) (m : machine) : machine :=
  set_heap (alter set_cancelled_ a (heap m)) m.

(** [::operator new(size)]. *)
Definition operator_new (size : N) : M addr := λ m,
  match oracle m with
  | true :: o => Throw BadAlloc (Machine (signals m) (heap m) o (trace m))
  | o =>
      let a := fresh (dom (heap m)) in
      Ok a (Machine (signals m) (<[a := Block size None]> (heap m)) (tail o)
              (trace m ++ [EvNew a size]))
  end.

(** [::operator delete(p)]; deleting the null pointer does nothing. *)
Definition operator_delete (p : option addr) : M unit := λ m,
  match p with
  | None => Ok tt m
  | Some a =>
      match heap m !! a with
      | None => Undefined
      | Some _ => Ok tt (record (EvDelete a) (set_heap (delete a (heap m)) m))
      end
  end.

(** The end of the life of the object at [a]; its block stays. *)
Definition end_lifetime (a : addr) : M unit := λ m,
  match heap m !! a with
  | Some (Block sz (Some _)) => Ok tt (set_heap (<[a := Block sz None]> (heap m)) m)
  | _ => Undefined
  end.

(** Placement [new (p) cancellation_handler<Handler>(size, args...)], the
    constructor having produced [obj]. *)
Definition placement_new (p : option addr) (obj : cancellation_handler) : M unit := λ m,
  match p with
  | None => Undefined
  | Some a =>
      match heap m !! a with
      | Some (Block sz _) => Ok tt (set_heap (<[a := Block sz (Some obj)]> (heap m)) m)
      | None => Undefined
      end
  end.

Definition tell (e : event) : M unit := λ m, Ok tt (record e m).

(** [*p] for a pointer to a handler object. *)
Definition deref (a : addr) : M cancellation_handler := λ m,
  match object_at a m with
  | Some obj => Ok obj m
  | None => Undefined
  end.

(** [*handler_] read through a slot's or a signal's pointer. *)
Definition deref_loc (l : loc) : M (option addr) := λ m,
  match load l m with
  | Some h => Ok h m
  | None => Undefined
  end.

Definition set_cancelled (a : addr) : M unit := λ m, Ok tt (cancel_at a m).

(** ** detail::cancellation_handler and cancellation_signal *)

(** [~cancellation_signal()], for the signal whose [handler_] is [h]; the
    virtual call [handler_->destroy()] is the parameter [destroy]. *)
Definition signal_dtor (destroy : addr → M (option addr * N)) (h : option addr) : M unit :=
  match h with
  | Some a =>
      let* mem := destroy a in
      operator_delete (fst mem)
  | None => ret tt
  end.

(** [cancellation_handler<Handler>::destroy()].  The destructor of the
    object destroys the member [handler_]; for [impl] that destroys its
    member [signal_]. *)
Fixpoint destroy (fuel : nat) (a : addr) : M (option addr * N) :=
  match fuel with
  | O => λ _, OutOfFuel
  | S fuel' =>
      let* _ := tell (EvDestroy a) in
      let* obj := deref a in
      let mem := (Some a, size_ obj) in
      let* _ :=
        match handler_ obj with
        | Impl s _ => signal_dtor (destroy fuel') s
        | User _ => ret tt
        end in
      let* _ := end_lifetime a in
      ret mem
  end.

(** [cancellation_handler<Handler>::call()]: [handler_()].  For [impl] this is
    [impl::operator()], which sets [cancelled_] and emits its own [signal_];
    [emit] is that member call. *)
Definition call (emit : loc → M unit) (a : addr) : M unit :=
  let* _ := tell (EvCall a) in
  let* obj := deref a in
  match handler_ obj with
  | Impl _ _ =>
      let* _ := set_cancelled a in
      emit (LImpl a)
  | User _ => ret tt
  end.

(** [cancellation_signal::emit()] on the signal whose [handler_] is at [l]. *)
Fixpoint emit (fuel : nat) (l : loc) : M unit :=
  match fuel with
  | O => λ _, OutOfFuel
  | S fuel' =>
      let* _ := tell (EvEmit l) in
      let* h := deref_loc l in
      match h with
      | Some a => call (emit fuel') a
      | None => ret tt
      end
  end.

(** [k] successive calls of [emit()]. *)
Fixpoint emit_n (fuel : nat) (k : nat) (l : loc) : M unit :=
  match k with
  | O => ret tt
  | S k' =>
      let* _ := emit fuel l in
      emit_n fuel k' l
  end.

(** [cancellation_signal::cancellation_signal()] for a signal the caller
    owns; the result names the new object. *)
Definition cancellation_signal_ctor : M nat := λ m,
  let n := fresh (dom (signals m)) in
  Ok n (set_signals (<[n := None]> (signals m)) m).

(** [cancellation_signal::~cancellation_signal()] for the caller's signal
    [n], after which the object is gone. *)
Definition cancellation_signal_dtor (fuel : nat) (n : nat) : M unit :=
  let* h := deref_loc (LSig n) in
  let* _ := signal_dtor (destroy fuel) h in
  λ m, Ok tt (set_signals (delete n (signals m)) m).

(** ** cancellation_slot *)

Record cancellation_slot : Type := Slot {
  slot_handler_ : option loc
}.

#[global] Instance cancellation_slot_eq_dec : EqDecision cancellation_slot.
Proof. solve_decision. Defined.

(** [cancellation_slot::cancellation_slot()]. *)
Definition cancellation_slot_default : cancellation_slot := Slot None.

(** [cancellation_signal::slot()] of the signal whose [handler_] is at
    [this]: [cancellation_slot(0, &handler_)]. *)
Definition cancellation_signal_slot (this : loc) : cancellation_slot :=
  Slot (Some this).

Definition is_connected (this : cancellation_slot) : bool :=
  bool_decide (slot_handler_ this ≠ None).

(** [handler_ != 0 && *handler_ != 0]; [None] when the slot dangles. *)
Definition has_handler (this : cancellation_slot) (m : machine) : option bool :=
  match slot_handler_ this with
  | None => Some false
  | Some l => (λ h : option addr, bool_decide (h ≠ None)) <$> load l m
  end.

(** [operator==] and [operator!=]. *)
Definition slot_eq (lhs rhs : cancellation_slot) : bool :=
  bool_decide (slot_handler_ lhs = slot_handler_ rhs).

Definition slot_ne (lhs rhs : cancellation_slot) : bool :=
  bool_decide (slot_handler_ lhs ≠ slot_handler_ rhs).

Definition prepare_memory (fuel : nat) (this : cancellation_slot) (size : N)
    : M (option addr * N) :=
  match slot_handler_ this with
  | None => λ _, AssertFail
  | Some l =>
      let* cur := deref_loc l in
      let* mem :=
        match cur with
        | Some a =>
            let* mem := destroy fuel a in
            let* _ := store l None in
            ret mem
        | None => ret (None, 0%N)
        end in
      if (snd mem <? size)%N then
        let* _ := operator_delete (fst mem) in
        let* p := operator_new size in
        ret (Some p, size)
      else ret mem
  end.

(** A [Handler] type together with the arguments of one [emplace]:
    [sizeof(cancellation_handler<Handler>)] and what the constructor of
    [Handler] does with the arguments, [None] when it throws. *)
Record handler_type : Type := HandlerType {
  sizeof_handler : N;
  construct : option handler
}.

(** [cancellation_slot::emplace<Handler>(args...)]; the result is the
    address of the installed object, which holds the returned [Handler&].
    When the constructor throws, [~auto_delete] releases [del.p]. *)
Definition emplace (fuel : nat) (H : handler_type) (this : cancellation_slot) : M addr :=
  let* mem := prepare_memory fuel this (sizeof_handler H) in
  match construct H with
  | None =>
      let* _ := operator_delete (fst mem) in
      throw HandlerCtor
  | Some h =>
      let* _ := placement_new (fst mem) (CancellationHandler h (snd mem)) in
      match slot_handler_ this, fst mem with
      | Some l, Some a =>
          let* _ := store l (Some a) in
          ret a
      | _, _ => undefined
      end
  end.

Definition clear (fuel : nat) (this : cancellation_slot) : M unit :=
  match slot_handler_ this with
  | None => ret tt
  | Some l =>
      let* cur := deref_loc l in
      match cur with
      | Some a =>
          let* mem := destroy fuel a in
          let* _ := operator_delete (fst mem) in
          store l None
      | None => ret tt
      end
  end.

(** ** cancellation_state *)

(** The only member is the pointer [impl_] to the [impl] inside the handler
    object installed in the parent slot, kept as that object's address. *)
Record cancellation_state : Type := State {
  impl_ : option addr
}.

(** [cancellation_handler<impl>] built by [emplace<impl>()]: [impl::impl()]
    does not throw and leaves [signal_] empty and [cancelled_] false.  The
    size [sizeof_impl] of the object depends on the platform. *)
Definition impl_type (sizeof_impl : N) : handler_type :=
  HandlerType sizeof_impl (Some (Impl None false)).

Definition cancellation_state_ctor (sizeof_impl : N) (fuel : nat)
    (slot : cancellation_slot) : M cancellation_state :=
  if is_connected slot then
    let* a := emplace fuel (impl_type sizeof_impl) slot in
    ret (State (Some a))
  else ret (State None).

(** The class declares no destructor: destroying a state destroys the
    pointer [impl_] and nothing else. *)
Definition cancellation_state_dtor (st : cancellation_state) : M unit := ret tt.

Definition state_slot (st : cancellation_state) : cancellation_slot :=
  match impl_ st with
  | Some a => cancellation_signal_slot (LImpl a)
  | None => cancellation_slot_default
  end.

(** [impl_ ? impl_->cancelled_ : false]; [None] when [impl_] dangles. *)
Definition cancelled (st : cancellation_state) (m : machine) : option bool :=
  match impl_ st with
  | Some a =>
      match handler_at a m with
      | Some (Impl _ c) => Some c
      | _ => None
      end
  | None => Some false
  end.

(** [n] states built in sequence, each from the slot of the one before. *)
Fixpoint build_chain (sizeof_impl : N) (fuel : nat) (n : nat)
    (slot : cancellation_slot) : M (list cancellation_state) :=
  match n with
  | O => ret []
  | S n' =>
      let* s := cancellation_state_ctor sizeof_impl fuel slot in
      let* rest := build_chain sizeof_impl fuel n' (state_slot s) in
      ret (s :: rest)
  end.

(** ** Vocabulary of the statements *)

(** The number of [emit()] calls on the signal at [l] in a trace. *)
Definition emissions (l : loc) (t : list event) : nat :=
  length (filter (λ e, e = EvEmit l) t).

(** The number of calls of the handler object at [a] in a trace. *)
Definition calls (a : addr) (t : list event) : nat :=
  length (filter (λ e, e = EvCall a) t).

(** The signal at [l] holds the forwarding handler at the head of [addrs],
    whose own signal holds the next one, and so on; the last signal is
    empty. *)
Fixpoint forwards (m : machine) (l : loc) (addrs : list addr) : Prop :=
  match addrs with
  | [] => load l m = Some None
  | a :: rest => load l m = Some (Some a) ∧ forwards m (LImpl a) rest
  end.

(** The signal a handler contains: the member [signal_] of an [impl], none
    for any other handler. *)
Definition child_of (h : handler) : option addr :=
  match h with
  | Impl s _ => s
  | User _ => None
  end.

(** The handler object at [a] owns, through its signal and the signals of
    the handlers below it, exactly the objects at [rest], in this order, each
    of them once. *)
Fixpoint owns (m : machine) (a : addr) (rest : list addr) : Prop :=
  match rest with
  | [] => (child_of <$> handler_at a m) = Some None
  | c :: rest' =>
      ((child_of <$> handler_at a m) = Some (Some c)) ∧
      (a ∉ rest) ∧ (owns m c rest')
  end.

(** What [destroy()] on the head of an ownership chain does, in order. *)
Fixpoint destroy_events (a : addr) (rest : list addr) : list event :=
  match rest with
  | [] => [EvDestroy a]
  | c :: rest' => EvDestroy a :: destroy_events c rest' ++ [EvDelete c]
  end.

(** A block of the free store that holds no object. *)
Definition raw (m : machine) (x : addr) : Prop :=
  ∃ sz, heap m !! x = Some (Block sz None).

(** ** Concrete stores *)

(** One signal of the caller, number 0, with no handler. *)
Definition one_signal : machine := Machine {[0 := None]} ∅ [] [].

(** The same when the next [::operator new] throws. *)
Definition one_signal_oom : machine := Machine {[0 := None]} ∅ [true] [].

(** Signal 0 holds a handler of the caller in a block of 24 bytes. *)
Definition occupied : machine :=
  Machine {[0 := Some 1%positive]}
    {[1%positive := Block 24 (Some (CancellationHandler (User 7) 24))]} [] [].

(** Signal 0 holds the forwarding handler of a state, whose signal holds a
    handler of the caller. *)
Definition nested : machine :=
  Machine {[0 := Some 1%positive]}
    (<[1%positive := Block 32 (Some (CancellationHandler (Impl (Some 2%positive) false) 32))]>
       {[2%positive := Block 24 (Some (CancellationHandler (User 7) 24))]}) [] [].

(** A signal [sig] of the caller, a state [st] built from its slot, and a
    handler installed in the slot of [st]. *)
Definition state_with_nested_handler : M (nat * cancellation_state) :=
  let* sig := cancellation_signal_ctor in
  let* st := cancellation_state_ctor 32 0 (cancellation_signal_slot (LSig sig)) in
  let* _ := emplace 0 (HandlerType 24 (Some (User 7))) (state_slot st) in
  ret (sig, st).

(** ** Further vocabulary *)

(** Every handler object records the size of the block it lives in. *)
Definition sized (m : machine) : Prop :=
  ∀ x sz obj, heap m !! x = Some (Block sz (Some obj)) → size_ obj = sz.

Definition is_new (e : event) : bool :=
  match e with
  | EvNew _ _ => true
  | _ => false
  end.

(** The number of calls of [::operator new] in a trace. *)
Definition allocations (t : list event) : nat :=
  length (filter (λ e, is_new e = true) t).

(** Handlers installed one after the other through the same slot. *)
Fixpoint emplace_all (fuel : nat) (Hs : list handler_type)
    (this : cancellation_slot) : M (list addr) :=
  match Hs with
  | [] => ret []
  | H :: Hs' =>
      let* a := emplace fuel H this in
      let* rest := emplace_all fuel Hs' this in
      ret (a :: rest)
  end.

(** The store after a handler object [obj] has been installed through [l]
    in a new block of [size] bytes at [p]. *)
Definition installed (l : loc) (p : addr) (size : N) (obj : cancellation_handler)
    (m : machine) : machine :=
  write l (Some p)
    (Machine (signals m) (<[p := Block size (Some obj)]> (heap m))
       (tail (oracle m)) (trace m ++ [EvNew p size])).

(** Signal 0 holds the forwarding handler of a state that has been
    cancelled. *)
Definition latched : machine :=
  Machine {[0 := Some 1%positive]}
    {[1%positive := Block 32 (Some (CancellationHandler (Impl None true) 32))]} [] [].

(** ** Running the monad *)

Lemma bind_Ok {A B} (c : M A) (k : A → M B) m b m' :
  bind c k m = Ok b m' ↔ ∃ a m1, c m = Ok a m1 ∧ k a m1 = Ok b m'.
Proof.
  unfold bind. split.
  - destruct (c m) as [a m1| | | |] eqn:E; try discriminate. eauto.
  - intros (a & m1 & -> & Hk). exact Hk.
Qed.

Lemma bind_Throw {A B} (c : M A) (k : A → M B) m e m' :
  bind c k m = Throw e m' ↔
  c m = Throw e m' ∨ ∃ a m1, c m = Ok a m1 ∧ k a m1 = Throw e m'.
Proof.
  unfold bind. split.
  - destruct (c m) as [a m1|e1 m1| | |] eqn:E; try discriminate; naive_solver.
  - intros [-> | (a & m1 & -> & Hk)]; [reflexivity | exact Hk].
Qed.

Lemma deref_loc_Ok l m h m' :
  deref_loc l m = Ok h m' ↔ load l m = Some h ∧ m' = m.
Proof.
  unfold deref_loc. destruct (load l m) as [h'|]; split.
  - by intros [= -> ->].
  - by intros [[= ->] ->].
  - discriminate.
  - by intros [[=] _].
Qed.

Lemma deref_Ok a m obj m' :
  deref a m = Ok obj m' ↔ object_at a m = Some obj ∧ m' = m.
Proof.
  unfold deref. destruct (object_at a m) as [obj'|]; split.
  - by intros [= -> ->].
  - by intros [[= ->] ->].
  - discriminate.
  - by intros [[=] _].
Qed.

Lemma ret_Ok {A} (a b : A) m m' : ret a m = Ok b m' ↔ a = b ∧ m = m'.
Proof. unfold ret. split; [intros [= -> ->] | intros [-> ->]]; done. Qed.

Lemma tell_Ok e m u m' : tell e m = Ok u m' ↔ m' = record e m.
Proof. unfold tell. destruct u. split; [intros [= <-] | intros ->]; done. Qed.

(** Splits off the first step of a sequence that returned. *)
Tactic Notation "inv_bind" hyp(H) "as" simple_intropattern(x)
    simple_intropattern(m1) ident(H1) :=
  apply bind_Ok in H; destruct H as (x & m1 & H1 & H).

(** ** What the primitives leave alone *)

Lemma object_at_Some a m obj :
  object_at a m = Some obj ↔ ∃ sz, heap m !! a = Some (Block sz (Some obj)).
Proof.
  unfold object_at. destruct (heap m !! a) as [[sz o]|]; simpl; split.
  - intros ->. eauto.
  - intros (sz' & [= -> ->]). reflexivity.
  - discriminate.
  - intros (? & [=]).
Qed.

Lemma load_LImpl a m v :
  load (LImpl a) m = Some v ↔ ∃ c, handler_at a m = Some (Impl v c).
Proof.
  simpl. destruct (handler_at a m) as [[s c|id]|]; split;
    try discriminate; try (intros (? & [=])); try naive_solver.
Qed.

Lemma load_record e l m : load l (record e m) = load l m.
Proof. by destruct l. Qed.

Lemma load_store_eq l v m m' :
  store l v m = Ok tt m' → load l m' = Some v.
Proof.
  unfold store. destruct (load l m) as [h|] eqn:Hl; [|discriminate].
  destruct l as [n|a]; intros [= <-]; simpl.
  - apply lookup_insert_eq.
  - apply load_LImpl in Hl as (c & Hh).
    unfold handler_at in *. destruct (object_at a m) as [obj|] eqn:Ho; [|discriminate].
    apply object_at_Some in Ho as (sz & Ho). injection Hh as Hh.
    unfold object_at. simpl. rewrite lookup_alter_eq, Ho. simpl.
    unfold set_signal_. simpl. destruct obj as [hd s]. simpl in Hh. subst hd.
    reflexivity.
Qed.

Lemma store_run l v old m :
  load l m = Some old → store l v m = Ok tt (write l v m).
Proof. unfold store. intros ->. by destruct l. Qed.

Lemma heap_write l v m x :
  (∀ b, l = LImpl b → b ≠ x) → heap (write l v m) !! x = heap m !! x.
Proof.
  intros Hne. destruct l as [n|b]; simpl; [done|].
  apply lookup_alter_ne. by apply Hne.
Qed.

Lemma heap_write_None l v m x :
  heap m !! x = None → heap (write l v m) !! x = None.
Proof.
  intros Hx. destruct l as [n|b]; simpl; [done|].
  rewrite lookup_alter. case_decide; [subst; by rewrite Hx|done].
Qed.

Lemma load_write l v old m :
  load l m = Some old → load l (write l v m) = Some v.
Proof. intros Hl. eapply load_store_eq. by eapply store_run. Qed.

(** ** Slots: misuse and equality *)

(** C5, as the code has it: [emplace] on a slot that is not connected fails
    the assertion of [prepare_memory], for every handler type and in every
    store; [clear] on such a slot returns normally and leaves the store as it
    was. *)
Theorem unconnected_emplace_asserts_clear_returns fuel H m :
  emplace fuel H cancellation_slot_default m = AssertFail ∧
  clear fuel cancellation_slot_default m = Ok tt m.
Proof. split; reflexivity. Qed.

(** C5 as stated fails: [clear] on a default-constructed slot does not fail
    an assertion, it returns. *)
Lemma unconnected_clear_does_not_assert :
  ¬ (emplace 1 (HandlerType 8 (Some (User 0))) cancellation_slot_default init = AssertFail ∧
     clear 1 cancellation_slot_default init = AssertFail).
Proof. intros [_ H]. discriminate H. Qed.

(** C7: slots compare equal exactly when they hold the same pointer: two
    slots of one signal are equal, slots of two different signals are not,
    and two default-constructed slots are equal. *)
Theorem slot_equality_is_identity (s1 s2 : loc) :
  slot_eq (cancellation_signal_slot s1) (cancellation_signal_slot s1) = true ∧
  (slot_eq (cancellation_signal_slot s1) (cancellation_signal_slot s2) = true ↔ s1 = s2) ∧
  (slot_ne (cancellation_signal_slot s1) (cancellation_signal_slot s2) = true ↔ s1 ≠ s2) ∧
  slot_eq cancellation_slot_default cancellation_slot_default = true ∧
  slot_eq cancellation_slot_default (cancellation_signal_slot s1) = false.
Proof.
  unfold slot_eq, slot_ne, cancellation_signal_slot, cancellation_slot_default. simpl.
  repeat split.
  - by apply bool_decide_eq_true.
  - intros H%bool_decide_eq_true. congruence.
  - intros ->. by apply bool_decide_eq_true.
  - intros H%bool_decide_eq_true. congruence.
  - intros H. apply bool_decide_eq_true. congruence.
Qed.

(** C8: a state built from a slot that is not connected has a null [impl_];
    building it touches nothing, its slot is not connected, and in every
    store, whatever has been emitted, [cancelled()] is false. *)
Theorem state_from_unconnected_slot sizeof_impl fuel m :
  ∃ st, cancellation_state_ctor sizeof_impl fuel cancellation_slot_default m = Ok st m ∧
    impl_ st = None ∧
    state_slot st = cancellation_slot_default ∧
    is_connected (state_slot st) = false ∧
    ∀ m', cancelled st m' = Some false ∧ has_handler (state_slot st) m' = Some false.
Proof. exists (State None). repeat split. Qed.

(** ** Inversion of the primitives *)

Lemma store_Ok l v m u m' :
  store l v m = Ok u m' →
  ∃ old, load l m = Some old ∧
    match l with
    | LSig n => m' = set_signals (<[n := v]> (signals m)) m
    | LImpl a => m' = set_heap (alter (set_signal_ v) a (heap m)) m
    end.
Proof.
  unfold store. destruct (load l m) as [old|]; [|discriminate].
  destruct l; intros [= <-]; eauto.
Qed.

Lemma operator_new_Ok size m p m' :
  operator_new size m = Ok p m' →
  p = fresh (dom (heap m)) ∧ heap m !! p = None ∧
  m' = Machine (signals m) (<[p := Block size None]> (heap m)) (tail (oracle m))
         (trace m ++ [EvNew p size]).
Proof.
  unfold operator_new. intros H.
  assert (m' = Machine (signals m) (<[p := Block size None]> (heap m))
                 (tail (oracle m)) (trace m ++ [EvNew p size])
          ∧ p = fresh (dom (heap m))) as [-> ->].
  { destruct (oracle m) as [|[] o]; try discriminate; by injection H as <- <-. }
  split; [done|]. split; [|done].
  apply not_elem_of_dom, is_fresh.
Qed.

Lemma operator_new_Throw size m e m' :
  operator_new size m = Throw e m' →
  e = BadAlloc ∧ signals m' = signals m ∧ heap m' = heap m ∧ trace m' = trace m.
Proof.
  unfold operator_new. destruct (oracle m) as [|[] o]; try discriminate.
  by intros [= <- <-].
Qed.

Lemma operator_delete_Ok p m u m' :
  operator_delete p m = Ok u m' →
  match p with
  | None => m' = m
  | Some a => is_Some (heap m !! a) ∧
      m' = record (EvDelete a) (set_heap (delete a (heap m)) m)
  end.
Proof.
  unfold operator_delete. destruct p as [a|]; [|by intros [= <-]].
  destruct (heap m !! a); [|discriminate]. intros [= <-]. eauto.
Qed.

Lemma end_lifetime_Ok a m u m' :
  end_lifetime a m = Ok u m' →
  ∃ sz obj, heap m !! a = Some (Block sz (Some obj)) ∧
    m' = set_heap (<[a := Block sz None]> (heap m)) m.
Proof.
  unfold end_lifetime. destruct (heap m !! a) as [[sz [obj|]]|]; try discriminate.
  intros [= <-]. eauto.
Qed.

Lemma placement_new_Ok p obj m u m' :
  placement_new p obj m = Ok u m' →
  ∃ a sz old, p = Some a ∧ heap m !! a = Some (Block sz old) ∧
    m' = set_heap (<[a := Block sz (Some obj)]> (heap m)) m.
Proof.
  unfold placement_new. destruct p as [a|]; [|discriminate].
  destruct (heap m !! a) as [[sz old]|] eqn:E; [|discriminate].
  intros [= <-]. by exists a, sz, old.
Qed.

(** A slot's pointer reads the same in two stores that agree on the
    caller's signals and on the object the pointer lies in. *)
Lemma load_ext l m m' :
  (∀ n, l = LSig n → signals m' !! n = signals m !! n) →
  (∀ a, l = LImpl a → heap m' !! a = heap m !! a) →
  load l m' = load l m.
Proof.
  intros Hs Hh. destruct l as [n|a]; simpl; [by apply Hs|].
  unfold handler_at, object_at. by rewrite (Hh a eq_refl).
Qed.

Lemma load_LImpl_is_Some a m v :
  load (LImpl a) m = Some v → ∃ sz obj, heap m !! a = Some (Block sz (Some obj)).
Proof.
  intros (c & Hh)%load_LImpl. unfold handler_at in Hh.
  destruct (object_at a m) as [obj|] eqn:Ho; [|discriminate].
  apply object_at_Some in Ho as (sz & Ho). eauto.
Qed.

Lemma signal_dtor_Ok d h m u m' :
  signal_dtor d h m = Ok u m' →
  match h with
  | None => m' = m
  | Some c => ∃ mem m1, d c m = Ok mem m1 ∧ operator_delete (fst mem) m1 = Ok u m'
  end.
Proof.
  unfold signal_dtor. destruct h as [c|].
  - intros H. apply bind_Ok in H as (mem & m1 & H1 & H2). eauto.
  - by intros [= <-].
Qed.

(** [destroy()] writes neither the caller's signals nor the oracle. *)
Lemma destroy_signals fuel : ∀ a m mem m',
  destroy fuel a m = Ok mem m' → signals m' = signals m ∧ oracle m' = oracle m.
Proof.
  induction fuel as [|fuel IH]; intros a m mem m' H; [discriminate|].
  simpl in H. inv_bind H as [] ? Ht. apply tell_Ok in Ht as ->.
  inv_bind H as obj ? Hobj. apply deref_Ok in Hobj as [Hobj ->].
  inv_bind H as [] m2 Hdtor. inv_bind H as [] m3 Hend.
  apply ret_Ok in H as [_ <-].
  apply end_lifetime_Ok in Hend as (sz & obj' & _ & ->). simpl.
  destruct (handler_ obj) as [[c|] fl|id].
  - apply signal_dtor_Ok in Hdtor as (mem' & m1 & Hd & Hdel).
    apply IH in Hd as [Hs Ho].
    apply operator_delete_Ok in Hdel. destruct (fst mem') as [b|].
    + destruct Hdel as [_ ->]. simpl. by rewrite Hs, Ho.
    + subst m2. by rewrite Hs, Ho.
  - by apply signal_dtor_Ok in Hdtor as ->.
  - by apply ret_Ok in Hdtor as [_ <-].
Qed.

(** [destroy()] returns the block of the object it was called on, with the
    size recorded in the object, and leaves that block without an object. *)
Lemma destroy_Ok fuel a m mem m' :
  destroy fuel a m = Ok mem m' →
  ∃ obj sz, object_at a m = Some obj ∧ mem = (Some a, size_ obj) ∧
    heap m' !! a = Some (Block sz None) ∧ signals m' = signals m ∧
    oracle m' = oracle m.
Proof.
  intros H. destruct (destroy_signals _ _ _ _ _ H) as [Hs Ho].
  destruct fuel as [|fuel]; [discriminate|]. simpl in H.
  inv_bind H as [] ? Ht. apply tell_Ok in Ht as ->.
  inv_bind H as obj ? Hobj. apply deref_Ok in Hobj as [Hobj ->].
  inv_bind H as [] m2 Hdtor. inv_bind H as [] m3 Hend.
  apply ret_Ok in H as [<- <-].
  apply end_lifetime_Ok in Hend as (sz & obj' & _ & ->).
  exists obj, sz. split; [done|]. split; [done|]. simpl.
  split; [apply lookup_insert_eq|done].
Qed.

(** ** emplace *)

(** When [prepare_memory] returns, the slot is empty and the block it
    returns is large enough and holds no object. *)
Lemma prepare_memory_Ok fuel l size m mem m' :
  prepare_memory fuel (Slot (Some l)) size m = Ok mem m' →
  load l m' = Some None ∧ (size ≤ snd mem)%N ∧
  match fst mem with
  | Some p => ∃ sz, heap m' !! p = Some (Block sz None)
  | None => True
  end.
Proof.
  unfold prepare_memory. simpl. intros H.
  inv_bind H as cur ? Hcur. apply deref_loc_Ok in Hcur as [Hcur ->].
  inv_bind H as mem0 m1 Hold.
  assert (load l m1 = Some None ∧
          match fst mem0 with
          | Some p => ∃ sz, heap m1 !! p = Some (Block sz None)
          | None => True
          end) as [Hl Hraw].
  { destruct cur as [a|].
    - inv_bind Hold as mem1 m2 Hd. inv_bind Hold as [] m3 Hst.
      apply ret_Ok in Hold as [<- <-].
      split; [by eapply load_store_eq|].
      apply destroy_Ok in Hd as (obj & sz & _ & -> & Ha & _). simpl.
      exists sz. apply store_Ok in Hst as (old & Hold & Hm3).
      destruct l as [n|b]; subst m3; simpl; [done|].
      rewrite lookup_alter_ne; [done|]. intros ->.
      apply load_LImpl_is_Some in Hold as (? & ? & Hb). congruence.
    - apply ret_Ok in Hold as [<- <-]. done. }
  destruct (snd mem0 <? size)%N eqn:Hlt.
  - inv_bind H as [] m2 Hdel. inv_bind H as p m3 Hnew.
    apply ret_Ok in H as [<- <-]. simpl.
    apply operator_new_Ok in Hnew as (_ & Hfresh & ->). simpl.
    assert (load l m2 = Some None) as Hl2.
    { apply operator_delete_Ok in Hdel. destruct (fst mem0) as [a|]; [|by subst].
      destruct Hdel as [_ ->]. rewrite load_record, <- Hl.
      apply load_ext; [done|]. intros b ->. simpl.
      destruct Hraw as (sz & Hraw). apply lookup_delete_ne. intros ->.
      apply load_LImpl_is_Some in Hl as (? & ? & Hb). congruence. }
    split; [|split; [lia|]].
    + rewrite <- Hl2. apply load_ext; [done|]. intros b ->. simpl.
      apply lookup_insert_ne. intros ->.
      apply load_LImpl_is_Some in Hl2 as (? & ? & Hb). congruence.
    + exists size. apply lookup_insert_eq.
  - apply ret_Ok in H as [<- <-]. apply N.ltb_ge in Hlt. done.
Qed.

(** When [emplace] returns, the slot holds the address it returned, and a
    fully constructed handler object lives there, in a block at least as
    large as the object, with the block's size recorded in it. *)
Lemma emplace_Ok fuel H l m a m' :
  emplace fuel H (Slot (Some l)) m = Ok a m' →
  ∃ h cap sz, construct H = Some h ∧ load l m' = Some (Some a) ∧
    heap m' !! a = Some (Block sz (Some (CancellationHandler h cap))) ∧
    (sizeof_handler H ≤ cap)%N ∧ l ≠ LImpl a.
Proof.
  unfold emplace. intros He. inv_bind He as mem m1 Hprep.
  apply prepare_memory_Ok in Hprep as (Hl & Hsz & Hraw).
  destruct (construct H) as [h|]; [|inv_bind He as [] ? Hx; discriminate].
  inv_bind He as [] m2 Hpl.
  apply placement_new_Ok in Hpl as (p & sz & old & Hp & Hblk & ->).
  rewrite Hp in He, Hraw. simpl in He. inv_bind He as [] m3 Hst.
  apply ret_Ok in He as [<- <-].
  destruct Hraw as (sz' & Hraw).
  assert (l ≠ LImpl p) as Hne.
  { intros ->. apply load_LImpl_is_Some in Hl as (? & ? & Hb). congruence. }
  exists h, (snd mem), sz. split; [done|]. split; [by eapply load_store_eq|].
  split; [|done].
  apply store_Ok in Hst as (_ & _ & Hm3).
  destruct l as [n|b]; subst m3; simpl; [apply lookup_insert_eq|].
  rewrite lookup_alter_ne by congruence. apply lookup_insert_eq.
Qed.

(** ** emit *)

Lemma emit_S fuel l m :
  emit (S fuel) l m =
  match load l m with
  | None => Undefined
  | Some None => Ok tt (record (EvEmit l) m)
  | Some (Some a) => call (emit fuel) a (record (EvEmit l) m)
  end.
Proof.
  simpl. unfold bind, tell, deref_loc. rewrite load_record.
  by destruct (load l m) as [[a|]|].
Qed.

Lemma handler_at_record e a m : handler_at a (record e m) = handler_at a m.
Proof. done. Qed.

Lemma call_eq e a m :
  call e a m =
  match handler_at a m with
  | None => Undefined
  | Some (Impl _ _) => e (LImpl a) (cancel_at a (record (EvCall a) m))
  | Some (User _) => Ok tt (record (EvCall a) m)
  end.
Proof.
  unfold call, bind, tell, deref, handler_at.
  change (object_at a (record (EvCall a) m)) with (object_at a m).
  destruct (object_at a m) as [[[s c|id] sz]|]; done.
Qed.

Lemma handler_at_cancel_at a b m :
  handler_at b (cancel_at a m) =
  match handler_at b m with
  | Some (Impl s c) => Some (Impl s (if decide (a = b) then true else c))
  | o => o
  end.
Proof.
  unfold handler_at, object_at, cancel_at. simpl.
  rewrite lookup_alter. case_decide as Hab.
  - subst b. destruct (heap m !! a) as [[sz [[[s c|id] cap]|]]|]; done.
  - by destruct (heap m !! b) as [[sz [[[s c|id] cap]|]]|].
Qed.

Lemma load_cancel_at a l m : load l (cancel_at a m) = load l m.
Proof.
  destruct l as [n|b]; [done|]. simpl. rewrite handler_at_cancel_at.
  by destruct (handler_at b m) as [[s c|id]|].
Qed.

Lemma handler_at_Some a m h :
  handler_at a m = Some h ↔
  ∃ sz cap, heap m !! a = Some (Block sz (Some (CancellationHandler h cap))).
Proof.
  unfold handler_at. split.
  - destruct (object_at a m) as [[h' cap]|] eqn:Ho; [|discriminate].
    intros [= <-]. apply object_at_Some in Ho as (sz & Ho). eauto.
  - intros (sz & cap & Hh).
    assert (object_at a m = Some (CancellationHandler h cap)) as ->; [|done].
    apply object_at_Some. eauto.
Qed.

(** [emplace] on an empty slot returns when the allocation succeeds and the
    constructor of the handler returns. *)
Lemma emplace_on_empty_slot fuel H h l m :
  load l m = Some None → (0 < sizeof_handler H)%N →
  construct H = Some h → head (oracle m) ≠ Some true →
  ∃ m', emplace fuel H (cancellation_signal_slot l) m = Ok (fresh (dom (heap m))) m' ∧
    oracle m' = tail (oracle m).
Proof.
  intros Hl Hsz Hc Hor.
  set (p := fresh (dom (heap m))).
  assert (heap m !! p = None) as Hp by apply not_elem_of_dom, is_fresh.
  set (obj := CancellationHandler h (sizeof_handler H)).
  set (m1 := Machine (signals m)
               (<[p := Block (sizeof_handler H) (Some obj)]>
                  (<[p := Block (sizeof_handler H) None]> (heap m)))
               (tail (oracle m)) (trace m ++ [EvNew p (sizeof_handler H)])).
  assert (load l m1 = Some None) as Hl1.
  { rewrite <- Hl. apply load_ext; [done|]. intros b ->. simpl.
    rewrite !lookup_insert_ne; [done| |]; intros ->;
      apply load_LImpl_is_Some in Hl as (? & ? & Hb); congruence. }
  exists (write l (Some p) m1). split; [|by destruct l].
  unfold emplace, prepare_memory, cancellation_signal_slot. cbn [slot_handler_].
  unfold bind at 1 2. unfold deref_loc at 1. rewrite Hl.
  unfold bind at 1. unfold ret at 1. cbn [fst snd].
  apply N.ltb_lt in Hsz. rewrite Hsz.
  unfold bind at 1. unfold operator_delete at 1.
  unfold bind at 1. unfold operator_new.
  assert (match oracle m with true :: _ => False | _ => True end) as Hor'.
  { by destruct (oracle m) as [|[] o]. }
  destruct (oracle m) as [|[] o] eqn:Eo; try done;
    unfold ret at 1; rewrite Hc; cbn [fst snd];
    unfold bind at 1; unfold placement_new; simpl heap;
    rewrite lookup_insert_eq; unfold set_heap; simpl;
    fold p; unfold bind; simpl in m1;
    (erewrite store_run; [reflexivity|exact Hl1]).
Qed.

(** Emission through a forwarding handler whose own signal is empty. *)
Lemma emit_forward_once fuel l a c m :
  load l m = Some (Some a) →
  handler_at a m = Some (Impl None c) →
  let m' := record (EvEmit (LImpl a))
              (cancel_at a (record (EvCall a) (record (EvEmit l) m))) in
  emit (S (S fuel)) l m = Ok tt m' ∧
  load l m' = Some (Some a) ∧
  handler_at a m' = Some (Impl None true) ∧
  trace m' = trace m ++ [EvEmit l; EvCall a; EvEmit (LImpl a)].
Proof.
  intros Hl Ha m'. split; [|split; [|split]].
  - rewrite emit_S, Hl, call_eq, handler_at_record, Ha, emit_S.
    simpl load. rewrite handler_at_cancel_at, !handler_at_record, Ha. done.
  - subst m'. by rewrite load_record, load_cancel_at, !load_record.
  - subst m'. rewrite handler_at_record, handler_at_cancel_at, !handler_at_record, Ha.
    by rewrite decide_True.
  - subst m'. simpl. by rewrite <- !app_assoc.
Qed.

(** C1: for a state built from a connected slot: [cancelled()] is false
    before any emission; one [emit()] on the parent signal returns, after it
    [cancelled()] is true and the state's own signal has been emitted
    exactly once; a second [emit()] returns with [cancelled()] still true and
    a second emission of the state's signal.  Such a state is built, on an
    empty slot, whenever the allocation succeeds. *)
Theorem state_latches_and_forwards sizeof_impl fuel l m :
  (∀ st m1,
     cancellation_state_ctor sizeof_impl fuel (cancellation_signal_slot l) m = Ok st m1 →
     ∃ a, state_slot st = cancellation_signal_slot (LImpl a) ∧
       cancelled st m1 = Some false ∧
       ∀ f1 f2, ∃ m2 m3,
         emit (S (S f1)) l m1 = Ok tt m2 ∧
         cancelled st m2 = Some true ∧
         trace m2 = trace m1 ++ [EvEmit l; EvCall a; EvEmit (LImpl a)] ∧
         emissions (LImpl a) (trace m2) = emissions (LImpl a) (trace m1) + 1 ∧
         emit (S (S f2)) l m2 = Ok tt m3 ∧
         cancelled st m3 = Some true ∧
         trace m3 = trace m2 ++ [EvEmit l; EvCall a; EvEmit (LImpl a)] ∧
         emissions (LImpl a) (trace m3) = emissions (LImpl a) (trace m1) + 2) ∧
  (load l m = Some None → (0 < sizeof_impl)%N → head (oracle m) ≠ Some true →
   ∃ st m1,
     cancellation_state_ctor sizeof_impl fuel (cancellation_signal_slot l) m = Ok st m1).
Proof.
  split.
  2:{ intros Hl Hsz Hor.
      destruct (emplace_on_empty_slot fuel (impl_type sizeof_impl) (Impl None false)
                  l m Hl Hsz eq_refl Hor) as (m1 & He & _).
      exists (State (Some (fresh (dom (heap m))))), m1.
      unfold cancellation_state_ctor. simpl. unfold bind. by rewrite He. }
  intros st m1. unfold cancellation_state_ctor. simpl. intros H.
  inv_bind H as a m' He. apply ret_Ok in H as [<- <-].
  apply emplace_Ok in He as (h & cap & sz & [= <-] & Hl & Ha & _ & Hne).
  assert (handler_at a m' = Some (Impl None false)) as Hh.
  { apply handler_at_Some. eauto. }
  exists a. split; [done|]. split; [unfold cancelled; simpl; by rewrite Hh|].
  intros f1 f2.
  destruct (emit_forward_once f1 l a false m' Hl Hh) as (E1 & Hl1 & Hh1 & Ht1).
  destruct (emit_forward_once f2 l a true _ Hl1 Hh1) as (E2 & Hl2 & Hh2 & Ht2).
  assert (Hcount : ∀ t, emissions (LImpl a) (t ++ [EvEmit l; EvCall a; EvEmit (LImpl a)])
                        = emissions (LImpl a) t + 1).
  { intros t. unfold emissions. rewrite filter_app, length_app. f_equal.
    rewrite filter_cons_False by congruence.
    rewrite filter_cons_False by congruence.
    by rewrite filter_cons_True. }
  eexists _, _. split; [exact E1|].
  split; [unfold cancelled; simpl; by rewrite Hh1|]. split; [exact Ht1|].
  split; [rewrite Ht1; apply Hcount|]. split; [exact E2|].
  split; [unfold cancelled; simpl; by rewrite Hh2|]. split; [exact Ht2|].
  rewrite Ht2, Hcount, Ht1, Hcount. lia.
Qed.

(** ** Chains of states *)

Lemma forwards_ext m m' : (∀ l, load l m' = load l m) →
  ∀ addrs l, forwards m l addrs → forwards m' l addrs.
Proof.
  intros Hext. induction addrs as [|a rest IH]; intros l; simpl.
  - by rewrite Hext.
  - rewrite Hext. intros [? ?]. auto.
Qed.

Lemma forwards_connected m l addrs : forwards m l addrs → is_Some (load l m).
Proof. destruct addrs; simpl; [|intros [? _]]; eauto. Qed.

(** [emit()] never resets a latch. *)
Lemma emit_keeps_cancelled fuel : ∀ l m m' a s,
  emit fuel l m = Ok tt m' →
  handler_at a m = Some (Impl s true) → handler_at a m' = Some (Impl s true).
Proof.
  induction fuel as [|fuel IH]; intros l m m' a s He Ha; [discriminate|].
  rewrite emit_S in He. destruct (load l m) as [[b|]|]; try discriminate.
  - rewrite call_eq, handler_at_record in He.
    destruct (handler_at b m) as [[sb cb|id]|]; try discriminate.
    + eapply IH; [exact He|].
      rewrite handler_at_cancel_at, !handler_at_record, Ha. by case_decide.
    + by injection He as <-.
  - by injection He as <-.
Qed.

(** One emission at the head of a chain of forwarding handlers returns and
    latches every one of them. *)
Lemma emit_forwards addrs : ∀ l m fuel,
  forwards m l addrs → length addrs < fuel →
  ∃ m', emit fuel l m = Ok tt m' ∧
    ∀ a, a ∈ addrs → cancelled (State (Some a)) m' = Some true.
Proof.
  induction addrs as [|a rest IH]; intros l m fuel Hf Hlen;
    (destruct fuel as [|fuel]; [simpl in Hlen; lia|]); rewrite emit_S.
  - simpl in Hf. rewrite Hf. eexists. split; [done|]. by intros a Ha%elem_of_nil.
  - destruct Hf as [Hl Hrest]. rewrite Hl, call_eq, handler_at_record.
    destruct (forwards_connected _ _ _ Hrest) as [s (c & Ha)%load_LImpl].
    rewrite Ha.
    destruct (IH (LImpl a) (cancel_at a (record (EvCall a) (record (EvEmit l) m))) fuel)
      as (m' & He & Hall).
    { eapply forwards_ext; [|exact Hrest].
      intros l'. by rewrite load_cancel_at, !load_record. }
    { simpl in Hlen. lia. }
    exists m'. split; [exact He|]. intros b [->|Hb]%elem_of_cons; [|by apply Hall].
    unfold cancelled. simpl.
    erewrite emit_keeps_cancelled; [done|exact He|].
    rewrite handler_at_cancel_at, !handler_at_record, Ha. by rewrite decide_True.
Qed.

(** Installing a handler in an empty slot takes a block that was not in
    use and leaves every other signal as it was. *)
Lemma emplace_empty_frame fuel H l m a m' :
  load l m = Some None →
  emplace fuel H (Slot (Some l)) m = Ok a m' →
  heap m !! a = None ∧
  ∀ l' v, l' ≠ l → load l' m = Some v → load l' m' = Some v.
Proof.
  intros Hl He. unfold emplace, prepare_memory in He. simpl in He.
  inv_bind He as mem m1 Hprep. inv_bind Hprep as cur ? Hcur.
  apply deref_loc_Ok in Hcur as [Hcur ->]. rewrite Hl in Hcur. injection Hcur as <-.
  inv_bind Hprep as mem0 ? Hm0. apply ret_Ok in Hm0 as [<- <-]. simpl in Hprep.
  destruct (construct H) as [h|]; [|inv_bind He as [] ? Hx; discriminate].
  inv_bind He as [] m2 Hpl.
  apply placement_new_Ok in Hpl as (p & sz & old & Hp & Hblk & ->).
  rewrite Hp in He. inv_bind He as [] m3 Hst. apply ret_Ok in He as [<- <-].
  destruct (0 <? sizeof_handler H)%N.
  2:{ apply ret_Ok in Hprep as [<- <-]. discriminate. }
  inv_bind Hprep as [] ? Hdel. apply ret_Ok in Hdel as [_ <-].
  inv_bind Hprep as q m4 Hnew. apply ret_Ok in Hprep as [<- <-].
  simpl in Hp. injection Hp as ->.
  apply operator_new_Ok in Hnew as (_ & Hfresh & ->).
  split; [done|]. intros l' v Hne Hl'.
  apply store_Ok in Hst as (_ & _ & Hm3). rewrite <- Hl'.
  assert (∀ b, l' = LImpl b → b ≠ p) as Hp.
  { intros b -> ->. apply load_LImpl_is_Some in Hl' as (? & ? & Hb). congruence. }
  apply load_ext.
  - intros n' ->. destruct l as [n|b]; subst m3; simpl; [|done].
    apply lookup_insert_ne. congruence.
  - intros b ->. specialize (Hp b eq_refl).
    destruct l as [n|b']; subst m3; simpl.
    + by rewrite !lookup_insert_ne.
    + rewrite lookup_alter_ne by congruence. by rewrite !lookup_insert_ne.
Qed.

(** States built in sequence from an empty slot form a chain of forwarding
    handlers below that slot; other signals are left as they were. *)
Lemma build_chain_forwards sizeof_impl fuel n : ∀ l m states m',
  load l m = Some None →
  build_chain sizeof_impl fuel n (Slot (Some l)) m = Ok states m' →
  ∃ addrs, states = (λ a, State (Some a)) <$> addrs ∧
    forwards m' l addrs ∧
    ∀ l' v, l' ≠ l → load l' m = Some v → load l' m' = Some v.
Proof.
  induction n as [|n IH]; intros l m states m' Hl Hb; simpl in Hb.
  - apply ret_Ok in Hb as [<- <-]. by exists [].
  - inv_bind Hb as st m1 Hc. inv_bind Hb as rest m2 Hrest.
    apply ret_Ok in Hb as [<- <-].
    unfold cancellation_state_ctor in Hc. simpl in Hc.
    inv_bind Hc as a ? He. apply ret_Ok in Hc as [<- <-].
    destruct (emplace_empty_frame _ _ _ _ _ _ Hl He) as [Hfresh Hframe].
    apply emplace_Ok in He as (h & cap & sz & [= <-] & Hl1 & Ha & _ & Hne).
    apply IH in Hrest as (addrs & -> & Hfw & Hframe2).
    2:{ apply load_LImpl. exists false. apply handler_at_Some. eauto. }
    exists (a :: addrs). split; [done|]. split.
    + split; [|done]. by apply Hframe2.
    + intros l' v Hne' Hl'. apply Hframe2; [|by apply Hframe].
      intros ->. apply load_LImpl_is_Some in Hl' as (? & ? & Hb). congruence.
Qed.

Lemma build_chain_length sizeof_impl fuel n : ∀ s m states m',
  build_chain sizeof_impl fuel n s m = Ok states m' → length states = n.
Proof.
  induction n as [|n IH]; intros s m states m' Hb; simpl in Hb.
  - by apply ret_Ok in Hb as [<- _].
  - inv_bind Hb as st m3 Hc. inv_bind Hb as rest' m4 Hrest.
    apply ret_Ok in Hb as [<- _]. simpl. f_equal. eauto.
Qed.

(** States are built in sequence from an empty slot whenever no allocation
    fails. *)
Lemma build_chain_returns sizeof_impl fuel n : ∀ l m,
  load l m = Some None → (0 < sizeof_impl)%N → oracle m = [] →
  ∃ states m',
    build_chain sizeof_impl fuel n (cancellation_signal_slot l) m = Ok states m' ∧
    oracle m' = [].
Proof.
  induction n as [|n IH]; intros l m Hl Hsz Hor; simpl.
  - by exists [], m.
  - destruct (emplace_on_empty_slot fuel (impl_type sizeof_impl) (Impl None false)
                l m Hl Hsz eq_refl) as (m1 & He & Hor1).
    { by rewrite Hor. }
    set (a := fresh (dom (heap m))) in *.
    destruct (emplace_Ok _ _ _ _ _ _ He) as (h & cap & sz & [= <-] & _ & Ha & _).
    destruct (IH (LImpl a) m1) as (rest & m' & Hb & Hor').
    { apply load_LImpl. exists false. apply handler_at_Some. eauto. }
    { done. }
    { by rewrite Hor1, Hor. }
    exists (State (Some a) :: rest), m'. split; [|done].
    unfold cancellation_state_ctor. simpl. unfold bind at 1 2. rewrite He.
    unfold ret at 1. unfold state_slot. simpl impl_. unfold bind. by rewrite Hb.
Qed.

(** C2: for [n + 1] states built in sequence, the first from a slot of the
    root signal and each next one from the slot of the state before, one
    [emit()] on the root signal returns and leaves [cancelled()] true on every
    one of them.  Such a sequence is built, from an empty slot, whenever no
    allocation fails. *)
Theorem chain_emit_cancels_every_state sizeof_impl fuel n root m :
  (∀ states m',
     build_chain sizeof_impl fuel (S n) (cancellation_signal_slot root) m = Ok states m' →
     length states = S n ∧
     ∀ f, S n < f →
       ∃ m'', emit f root m' = Ok tt m'' ∧
         Forall (λ st, cancelled st m'' = Some true) states) ∧
  (load root m = Some None → (0 < sizeof_impl)%N → oracle m = [] →
   ∃ states m',
     build_chain sizeof_impl fuel (S n) (cancellation_signal_slot root) m = Ok states m').
Proof.
  split.
  2:{ intros Hl Hsz Hor.
      destruct (build_chain_returns sizeof_impl fuel (S n) root m Hl Hsz Hor)
        as (states & m' & Hb & _). eauto. }
  intros states m' Hb. simpl in Hb.
  inv_bind Hb as st m1 Hc. inv_bind Hb as rest m2 Hrest.
  apply ret_Ok in Hb as [<- <-].
  unfold cancellation_state_ctor in Hc. simpl in Hc.
  inv_bind Hc as a ? He. apply ret_Ok in Hc as [<- <-].
  apply emplace_Ok in He as (h & cap & sz & [= <-] & Hl1 & Ha & _ & Hne).
  pose proof (build_chain_length _ _ _ _ _ _ _ Hrest) as Hlen.
  apply build_chain_forwards in Hrest as (addrs & -> & Hfw & Hframe).
  2:{ apply load_LImpl. exists false. apply handler_at_Some. eauto. }
  split; [simpl; by rewrite Hlen|].
  intros f Hf.
  destruct (emit_forwards (a :: addrs) root m2 f) as (m'' & Hemit & Hall).
  { split; [by apply Hframe|done]. }
  { rewrite length_fmap in Hlen. simpl. lia. }
  exists m''. split; [exact Hemit|].
  change (State (Some a) :: _) with ((λ a, State (Some a)) <$> (a :: addrs)).
  apply Forall_fmap, Forall_forall. intros b Hb. by apply Hall.
Qed.

(** ** Ownership chains and destruction *)

Lemma destroy_S fuel a m :
  destroy (S fuel) a m =
  match object_at a m with
  | None => Undefined
  | Some obj =>
      bind (match handler_ obj with
            | Impl s _ => signal_dtor (destroy fuel) s
            | User _ => ret tt
            end)
        (λ _, bind (end_lifetime a) (λ _, ret (Some a, size_ obj)))
        (record (EvDestroy a) m)
  end.
Proof.
  simpl. unfold bind at 1 2. unfold tell, deref.
  change (object_at a (record (EvDestroy a) m)) with (object_at a m).
  by destruct (object_at a m).
Qed.

Lemma owns_ext m m' : heap m' = heap m → ∀ rest a, owns m a rest → owns m' a rest.
Proof.
  intros Hh. induction rest as [|c rest IH]; intros a; simpl;
    unfold handler_at, object_at; rewrite Hh; [done|].
  intros (? & ? & ?). auto.
Qed.

Lemma owns_object m a rest :
  owns m a rest →
  ∃ sz h cap, heap m !! a = Some (Block sz (Some (CancellationHandler h cap))) ∧
    child_of h = head rest.
Proof.
  intros Ho.
  assert (child_of <$> handler_at a m = Some (head rest)) as Hc.
  { destruct rest; [exact Ho | exact (proj1 Ho)]. }
  destruct (handler_at a m) as [h|] eqn:Hh; [|discriminate].
  injection Hc as Hc. apply handler_at_Some in Hh as (sz & cap & Hh). eauto 6.
Qed.

(** [destroy()] on the head of an ownership chain returns the head's block
    and recorded size, having destroyed every object of the chain and
    released every block but the head's, which is left without an object. *)
Lemma destroy_owns rest : ∀ a m fuel,
  owns m a rest → length rest < fuel →
  ∃ m' sz h cap,
    heap m !! a = Some (Block sz (Some (CancellationHandler h cap))) ∧
    destroy fuel a m = Ok (Some a, cap) m' ∧
    signals m' = signals m ∧ oracle m' = oracle m ∧
    trace m' = trace m ++ destroy_events a rest ∧
    ∀ x, heap m' !! x =
      if decide (x ∈ rest) then None
      else if decide (x = a) then Some (Block sz None) else heap m !! x.
Proof.
  induction rest as [|c rest IH]; intros a m fuel Ho Hlen;
    (destruct fuel as [|fuel]; [simpl in Hlen; lia|]);
    destruct (owns_object _ _ _ Ho) as (sz & h & cap & Ha & Hch);
    assert (object_at a m = Some (CancellationHandler h cap)) as Hobj
      by (apply object_at_Some; eauto);
    rewrite destroy_S, Hobj; simpl in Hch |- *.
  - exists (set_heap (<[a := Block sz None]> (heap m)) (record (EvDestroy a) m)).
    exists sz, h, cap. split; [done|]. split.
    + assert (match h with
              | Impl s _ => signal_dtor (destroy fuel) s
              | User _ => ret tt
              end (record (EvDestroy a) m) = Ok tt (record (EvDestroy a) m)) as Hd.
      { destruct h as [s fl|id]; [|done]. simpl in Hch. by subst s. }
      unfold bind at 1. rewrite Hd. unfold bind, end_lifetime. simpl. by rewrite Ha.
    + repeat split; try done. intros x. simpl.
      destruct (decide (x ∈ [])) as [Hin%elem_of_nil|_]; [done|].
      destruct (decide (x = a)) as [->|Hx]; [apply lookup_insert_eq|].
      by apply lookup_insert_ne.
  - destruct Ho as (_ & Hnotin & Hoc).
    destruct h as [s fl|id]; [|discriminate]. simpl in Hch. subst s.
    destruct (IH c (record (EvDestroy a) m) fuel) as
      (m1 & szc & hc & capc & Hc & Hdc & Hs1 & Ho1 & Ht1 & Hh1).
    { by eapply owns_ext; [|exact Hoc]. }
    { simpl in Hlen. lia. }
    assert (c ∉ rest) as Hc_notin.
    { destruct rest; [apply not_elem_of_nil | exact (proj1 (proj2 Hoc))]. }
    apply not_elem_of_cons in Hnotin as [Hac Har].
    exists (set_heap (<[a := Block sz None]> (delete c (heap m1)))
              (record (EvDelete c) m1)).
    exists sz, (Impl (Some c) fl), cap. split; [done|]. split.
    + pose proof (Hh1 c) as Hc1. pose proof (Hh1 a) as Ha1.
      destruct (decide (c ∈ rest)); [done|].
      destruct (decide (c = c)); [|done].
      destruct (decide (a ∈ rest)); [done|].
      destruct (decide (a = c)); [done|]. simpl in Ha1. rewrite Ha in Ha1.
      unfold bind at 1. unfold signal_dtor. unfold bind at 1. rewrite Hdc.
      unfold operator_delete. simpl fst. cbv beta iota. rewrite Hc1.
      unfold bind, end_lifetime. simpl.
      rewrite lookup_delete_ne by done. by rewrite Ha1.
    + simpl. split; [done|]. split; [done|]. split.
      { rewrite Ht1. simpl. by rewrite <- !app_assoc. }
      intros x. pose proof (Hh1 x) as Hx1. simpl in Hx1.
      destruct (decide (x ∈ c :: rest)) as [Hin|Hnin].
      * apply elem_of_cons in Hin.
        rewrite lookup_insert_ne by (intros ->; naive_solver).
        destruct (decide (x = c)) as [->|Hxc]; [apply lookup_delete_eq|].
        rewrite lookup_delete_ne, Hx1 by done.
        destruct (decide (x ∈ rest)); [done|naive_solver].
      * apply not_elem_of_cons in Hnin as [Hxc Hxr].
        destruct (decide (x = a)) as [->|Hxa]; [apply lookup_insert_eq|].
        rewrite lookup_insert_ne, lookup_delete_ne, Hx1 by done.
        destruct (decide (x ∈ rest)); [done|].
        by destruct (decide (x = c)).
Qed.

Lemma owns_head_not_in m a rest : owns m a rest → a ∉ rest.
Proof.
  destruct rest; [intros _; apply not_elem_of_nil | by intros (_ & ? & _)].
Qed.

(** Every signal inside an ownership chain holds the next object of the
    chain. *)
Lemma owns_child_in m rest : ∀ a b c,
  owns m a rest → b ∈ a :: rest →
  (child_of <$> handler_at b m) = Some (Some c) → c ∈ rest.
Proof.
  induction rest as [|c1 rest IH]; intros a b c Ho Hb Hc.
  - apply list_elem_of_singleton in Hb as ->. simpl in Ho. congruence.
  - destruct Ho as (Ha & _ & Hoc). apply elem_of_cons in Hb as [->|Hb].
    + rewrite Ha in Hc. injection Hc as <-. apply list_elem_of_here.
    + apply list_elem_of_further. by eapply IH.
Qed.

(** The signal that holds the head of an ownership chain is not inside the
    chain. *)
Lemma owner_outside m l a rest b :
  load l m = Some (Some a) → owns m a rest → l = LImpl b → b ∉ a :: rest.
Proof.
  intros Hl Ho -> Hb. apply load_LImpl in Hl as (c & Hh).
  apply (owns_head_not_in _ _ _ Ho).
  eapply owns_child_in; [exact Ho|exact Hb|]. by rewrite Hh.
Qed.

(** The first half of [prepare_memory] on an occupied slot: the handler and
    all it owns are destroyed, and the slot is emptied. *)
Lemma vacate_run fuel l a rest m :
  load l m = Some (Some a) → owns m a rest → length rest < fuel →
  ∃ m2 sz old cap,
    heap m !! a = Some (Block sz (Some (CancellationHandler old cap))) ∧
    bind (destroy fuel a) (λ mem, bind (store l None) (λ _, ret mem)) m
      = Ok (Some a, cap) m2 ∧
    load l m2 = Some None ∧
    heap m2 !! a = Some (Block sz None) ∧
    (∀ x, x ∈ rest → heap m2 !! x = None) ∧
    trace m2 = trace m ++ destroy_events a rest ∧
    oracle m2 = oracle m.
Proof.
  intros Hl Ho Hlen.
  destruct (destroy_owns rest a m fuel Ho Hlen)
    as (m1 & sz & old & cap & Ha & Hd & Hs1 & Ho1 & Ht1 & Hh1).
  pose proof (λ b, owner_outside m l a rest b Hl Ho) as Hout.
  assert (load l m1 = Some (Some a)) as Hl1.
  { rewrite <- Hl. apply load_ext; [intros; by rewrite Hs1|].
    intros b Hb. specialize (Hout b Hb). apply not_elem_of_cons in Hout as [? ?].
    rewrite (Hh1 b). destruct (decide (b ∈ rest)); [done|].
    by destruct (decide (b = a)). }
  assert (∀ x, x ∈ a :: rest → heap (write l None m1) !! x = heap m1 !! x) as Hw.
  { intros x Hx. apply heap_write. intros b Hb ->. by apply (Hout x). }
  exists (write l None m1), sz, old, cap. split; [done|]. split.
  { unfold bind at 1. rewrite Hd. unfold bind. by rewrite (store_run _ _ _ _ Hl1). }
  split; [by eapply load_write|]. split.
  { rewrite Hw by apply list_elem_of_here. rewrite (Hh1 a).
    destruct (decide (a ∈ rest)) as [Hin|_]; [by apply owns_head_not_in in Ho|].
    by destruct (decide (a = a)). }
  split.
  { intros x Hx. rewrite Hw by (by apply list_elem_of_further).
    rewrite (Hh1 x). by destruct (decide (x ∈ rest)). }
  by destruct l.
Qed.

(** The second half of [emplace]: the object is constructed in the prepared
    block and the slot is made to point to it. *)
Lemma install_run l p bs obj m :
  load l m = Some None → heap m !! p = Some (Block bs None) →
  ∃ m', bind (placement_new (Some p) obj)
          (λ _, bind (store l (Some p)) (λ _, ret p)) m = Ok p m' ∧
    load l m' = Some (Some p) ∧
    heap m' !! p = Some (Block bs (Some obj)) ∧
    trace m' = trace m ∧ oracle m' = oracle m ∧
    ∀ x, heap m !! x = None → heap m' !! x = None.
Proof.
  intros Hl Hp.
  set (m1 := set_heap (<[p := Block bs (Some obj)]> (heap m)) m).
  assert (∀ b, l = LImpl b → b ≠ p) as Hne.
  { intros b -> ->. apply load_LImpl_is_Some in Hl as (? & ? & Hb). congruence. }
  assert (load l m1 = Some None) as Hl1.
  { rewrite <- Hl. apply load_ext; [done|]. intros b Hb. simpl.
    apply lookup_insert_ne. intros E. by apply (Hne b Hb). }
  exists (write l (Some p) m1). split.
  { unfold bind at 1. unfold placement_new. rewrite Hp. fold m1.
    unfold bind. by rewrite (store_run _ _ _ _ Hl1). }
  split; [by eapply load_write|]. split.
  { rewrite heap_write by done. apply lookup_insert_eq. }
  split; [by destruct l|]. split; [by destruct l|].
  intros x Hx. apply heap_write_None. simpl.
  rewrite lookup_insert_ne; [done|]. intros ->. congruence.
Qed.

Lemma operator_new_run size m :
  head (oracle m) ≠ Some true →
  operator_new size m =
  Ok (fresh (dom (heap m)))
     (Machine (signals m) (<[fresh (dom (heap m)) := Block size None]> (heap m))
        (tail (oracle m)) (trace m ++ [EvNew (fresh (dom (heap m))) size])).
Proof. unfold operator_new. by destruct (oracle m) as [|[] o]. Qed.


(** ** Failure of emplace *)

Lemma operator_delete_no_Throw p m e m' : operator_delete p m ≠ Throw e m'.
Proof. unfold operator_delete. destruct p; [destruct (heap m !! _)|]; done. Qed.

Lemma store_no_Throw l v m e m' : store l v m ≠ Throw e m'.
Proof. unfold store. destruct (load l m); [destruct l|]; done. Qed.

Lemma placement_new_no_Throw p obj m e m' : placement_new p obj m ≠ Throw e m'.
Proof.
  unfold placement_new. destruct p; [destruct (heap m !! _) as [[]|]|]; done.
Qed.

Lemma end_lifetime_no_Throw a m e m' : end_lifetime a m ≠ Throw e m'.
Proof.
  unfold end_lifetime. by destruct (heap m !! a) as [[sz [obj|]]|].
Qed.

Lemma deref_loc_no_Throw l m e m' : deref_loc l m ≠ Throw e m'.
Proof. unfold deref_loc. by destruct (load l m). Qed.

(** [destroy()] is [noexcept]. *)
Lemma destroy_no_Throw fuel : ∀ a m e m', destroy fuel a m ≠ Throw e m'.
Proof.
  induction fuel as [|fuel IH]; intros a m e m' H; [discriminate|].
  rewrite destroy_S in H. destruct (object_at a m) as [obj|]; [|discriminate].
  apply bind_Throw in H as [H|(u & m1 & _ & H)].
  - destruct (handler_ obj) as [[c|] fl|id]; try discriminate.
    unfold signal_dtor in H. apply bind_Throw in H as [H|(mem & m1 & _ & H)].
    + by apply IH in H.
    + by apply operator_delete_no_Throw in H.
  - apply bind_Throw in H as [H|(u' & m2 & _ & H)]; [|discriminate].
    by apply end_lifetime_no_Throw in H.
Qed.

(** [destroy()] leaves no block without an object behind, but the one it
    returns. *)
Lemma destroy_raw fuel : ∀ a m mem m' x,
  destroy fuel a m = Ok mem m' → x ≠ a → raw m' x → raw m x.
Proof.
  induction fuel as [|fuel IH]; intros a m mem m' x H Hxa Hraw; [discriminate|].
  rewrite destroy_S in H. destruct (object_at a m) as [obj|]; [|discriminate].
  inv_bind H as [] m2 Hdtor. inv_bind H as [] m3 Hend. apply ret_Ok in H as [_ <-].
  apply end_lifetime_Ok in Hend as (sz & obj' & _ & ->).
  destruct Hraw as (szx & Hx). simpl in Hx. rewrite lookup_insert_ne in Hx by done.
  destruct (handler_ obj) as [[c|] fl|id].
  - apply signal_dtor_Ok in Hdtor as (mem' & m1 & Hd & Hdel).
    destruct (destroy_Ok _ _ _ _ _ Hd) as (? & ? & _ & -> & _).
    apply operator_delete_Ok in Hdel as [_ ->]. simpl in Hx.
    rewrite lookup_delete in Hx. case_decide as Hcx; [done|].
    eapply (IH c (record (EvDestroy a) m) _ m1 x Hd); [done|]. by exists szx.
  - apply signal_dtor_Ok in Hdtor as ->. by exists szx.
  - apply ret_Ok in Hdtor as [_ <-]. by exists szx.
Qed.

(** The first half of [prepare_memory], whenever it returns. *)
Lemma vacate_Ok fuel l cur m mem m' :
  load l m = Some cur →
  match cur with
  | Some a => bind (destroy fuel a) (λ mem, bind (store l None) (λ _, ret mem))
  | None => ret (None, 0%N)
  end m = Ok mem m' →
  load l m' = Some None ∧
  match fst mem with
  | Some p => raw m' p
  | None => True
  end ∧
  ∀ x, raw m' x → fst mem ≠ Some x → raw m x.
Proof.
  intros Hl H. destruct cur as [a|].
  - inv_bind H as mem1 m2 Hd. inv_bind H as [] m3 Hst.
    apply ret_Ok in H as [<- <-].
    pose proof (λ x, destroy_raw _ _ _ _ _ x Hd) as Hmono.
    apply destroy_Ok in Hd as (obj & sz & _ & -> & Ha & _). simpl in Hmono |- *.
    pose proof (load_store_eq _ _ _ _ Hst) as Hl3.
    apply store_Ok in Hst as (old & Hold & Hm3).
    assert (∀ x, raw m3 x → raw m2 x) as Hback.
    { intros x (szx & Hx). destruct l as [n|b]; subst m3; simpl in Hx; [by exists szx|].
      rewrite lookup_alter in Hx. case_decide as Hbx; [|by exists szx].
      subst x. apply load_LImpl_is_Some in Hold as (sb & ob & Hb).
      rewrite Hb in Hx. simpl in Hx. unfold set_signal_ in Hx. simpl in Hx.
      destruct ob as [[s c|id] cap]; simpl in Hx; discriminate. }
    split; [done|]. split.
    + exists sz. destruct l as [n|b]; subst m3; simpl; [done|].
      rewrite lookup_alter_ne; [done|]. intros ->.
      apply load_LImpl_is_Some in Hold as (? & ? & Hb). congruence.
    + intros x Hx Hne. apply Hmono; [congruence|]. by apply Hback.
  - apply ret_Ok in H as [<- <-]. done.
Qed.

Lemma store_raw l v m u m' x : store l v m = Ok u m' → raw m' x → raw m x.
Proof.
  intros (old & Hold & Hm')%store_Ok (szx & Hx).
  destruct l as [n|b]; subst m'; simpl in Hx; [by exists szx|].
  rewrite lookup_alter in Hx. case_decide as Hbx; [|by exists szx].
  subst x. apply load_LImpl_is_Some in Hold as (sb & ob & Hb).
  rewrite Hb in Hx. simpl in Hx. unfold set_signal_ in Hx. simpl in Hx.
  destruct ob as [[s c|id] cap]; simpl in Hx; discriminate.
Qed.

Lemma load_delete_raw l p m :
  is_Some (load l m) → raw m p →
  load l (record (EvDelete p) (set_heap (delete p (heap m)) m)) = load l m.
Proof.
  intros [v Hl] (sz & Hp). rewrite load_record. apply load_ext; [done|].
  intros b ->. simpl. apply lookup_delete_ne. intros ->.
  apply load_LImpl_is_Some in Hl as (? & ? & Hb). congruence.
Qed.

(** [prepare_memory] leaves no block without an object behind, but the one
    it returns. *)
Lemma prepare_memory_raw fuel l size m mem m' x :
  prepare_memory fuel (Slot (Some l)) size m = Ok mem m' →
  raw m' x → fst mem ≠ Some x → raw m x.
Proof.
  unfold prepare_memory. simpl. intros H Hx Hne.
  inv_bind H as cur ? Hcur. apply deref_loc_Ok in Hcur as [Hcur ->].
  inv_bind H as mem0 m1 Hold.
  destruct (vacate_Ok _ _ _ _ _ _ Hcur Hold) as (Hl1 & Hp0 & Hmono).
  destruct (snd mem0 <? size)%N.
  - inv_bind H as [] m2 Hdel. inv_bind H as p m3 Hnew.
    apply ret_Ok in H as [<- <-]. simpl in Hne.
    apply operator_new_Ok in Hnew as (_ & Hfresh & ->).
    destruct Hx as (szx & Hx). simpl in Hx.
    rewrite lookup_insert_ne in Hx by congruence.
    apply operator_delete_Ok in Hdel. destruct (fst mem0) as [p0|] eqn:E0.
    + destruct Hdel as [_ ->]. simpl in Hx. rewrite lookup_delete in Hx.
      case_decide as Hp0x; [done|]. apply Hmono; [by exists szx|congruence].
    + subst m2. apply Hmono; [by exists szx|congruence].
  - apply ret_Ok in H as [<- <-]. by apply Hmono.
Qed.

(** When [prepare_memory] throws, the allocation has failed, the slot is
    empty and no block without an object is left behind. *)
Lemma prepare_memory_Throw fuel l size m e m' :
  prepare_memory fuel (Slot (Some l)) size m = Throw e m' →
  e = BadAlloc ∧ load l m' = Some None ∧ ∀ x, raw m' x → raw m x.
Proof.
  unfold prepare_memory. simpl. intros H.
  apply bind_Throw in H as [H|(cur & ? & Hcur & H)];
    [by apply deref_loc_no_Throw in H|].
  apply deref_loc_Ok in Hcur as [Hcur ->].
  apply bind_Throw in H as [H|(mem0 & m1 & Hold & H)].
  { destruct cur as [a|]; [|discriminate].
    apply bind_Throw in H as [H|(? & ? & _ & H)]; [by apply destroy_no_Throw in H|].
    apply bind_Throw in H as [H|(? & ? & _ & H)]; [by apply store_no_Throw in H|].
    discriminate. }
  destruct (vacate_Ok _ _ _ _ _ _ Hcur Hold) as (Hl1 & Hp0 & Hmono).
  destruct (snd mem0 <? size)%N; [|discriminate].
  apply bind_Throw in H as [H|([] & m2 & Hdel & H)];
    [by apply operator_delete_no_Throw in H|].
  apply bind_Throw in H as [H|(? & ? & _ & H)]; [|discriminate].
  apply operator_new_Throw in H as (-> & Hs & Hh & _).
  assert (load l m2 = Some None ∧ ∀ x, raw m2 x → raw m x) as [Hl2 Hraw2].
  { apply operator_delete_Ok in Hdel. destruct (fst mem0) as [p0|] eqn:E0.
    - destruct Hdel as [_ ->]. split; [by rewrite load_delete_raw|].
      intros x (szx & Hx). simpl in Hx. rewrite lookup_delete in Hx.
      case_decide; [done|]. apply Hmono; [by exists szx|congruence].
    - subst m2. split; [done|]. intros x Hx. by apply Hmono. }
  split; [done|]. split.
  - rewrite <- Hl2. apply load_ext; intros; by rewrite ?Hs, ?Hh.
  - intros x (szx & Hx). apply Hraw2. exists szx. by rewrite <- Hh.
Qed.

(** On a connected slot, no step of [emplace] fails an assertion. *)
Lemma bind_no_Assert {A B} (c : M A) (k : A → M B) m :
  c m ≠ AssertFail → (∀ a m1, c m = Ok a m1 → k a m1 ≠ AssertFail) →
  bind c k m ≠ AssertFail.
Proof.
  unfold bind. intros Hc Hk. destruct (c m) as [a m1| | | |] eqn:E; try done.
  by apply Hk.
Qed.

Lemma operator_delete_no_Assert p m : operator_delete p m ≠ AssertFail.
Proof. unfold operator_delete. destruct p; [destruct (heap m !! _)|]; done. Qed.

Lemma operator_new_no_Assert size m : operator_new size m ≠ AssertFail.
Proof. unfold operator_new. by destruct (oracle m) as [|[] o]. Qed.

Lemma store_no_Assert l v m : store l v m ≠ AssertFail.
Proof. unfold store. destruct (load l m); [destruct l|]; done. Qed.

Lemma placement_new_no_Assert p obj m : placement_new p obj m ≠ AssertFail.
Proof.
  unfold placement_new. destruct p; [destruct (heap m !! _) as [[]|]|]; done.
Qed.

Lemma end_lifetime_no_Assert a m : end_lifetime a m ≠ AssertFail.
Proof. unfold end_lifetime. by destruct (heap m !! a) as [[sz [obj|]]|]. Qed.

Lemma deref_loc_no_Assert l m : deref_loc l m ≠ AssertFail.
Proof. unfold deref_loc. by destruct (load l m). Qed.

Create HintDb no_assert.
#[local] Hint Resolve operator_delete_no_Assert operator_new_no_Assert
  store_no_Assert placement_new_no_Assert end_lifetime_no_Assert
  deref_loc_no_Assert : no_assert.

(** Walks through a sequence of steps none of which is an [assert]. *)
Ltac no_assert :=
  repeat first
    [ apply bind_no_Assert; [|intros ? ? _]
    | solve [eauto with no_assert]
    | discriminate
    | match goal with
      | |- context [match ?x with _ => _ end] => destruct x
      | |- context [if ?b then _ else _] => destruct b
      end ].

Lemma destroy_no_Assert fuel : ∀ a m, destroy fuel a m ≠ AssertFail.
Proof.
  induction fuel as [|fuel IH]; intros a m; [done|].
  rewrite destroy_S. unfold signal_dtor. no_assert.
Qed.
#[local] Hint Resolve destroy_no_Assert : no_assert.

Lemma emplace_no_Assert fuel H l m :
  emplace fuel H (cancellation_signal_slot l) m ≠ AssertFail.
Proof.
  unfold emplace, prepare_memory, cancellation_signal_slot. cbn [slot_handler_].
  no_assert.
Qed.

(** [emplace] on a slot that holds a handler, up to the point where the old
    handler is gone and the slot is empty. *)
Lemma emplace_occupied_eq fuel H l a rest m :
  load l m = Some (Some a) → owns m a rest → length rest < fuel →
  ∃ m2 sz old cap,
    heap m !! a = Some (Block sz (Some (CancellationHandler old cap))) ∧
    load l m2 = Some None ∧ heap m2 !! a = Some (Block sz None) ∧
    (∀ x, x ∈ rest → heap m2 !! x = None) ∧
    trace m2 = trace m ++ destroy_events a rest ∧ oracle m2 = oracle m ∧
    emplace fuel H (cancellation_signal_slot l) m =
    bind (if (cap <? sizeof_handler H)%N
          then bind (operator_delete (Some a))
                 (λ _, bind (operator_new (sizeof_handler H))
                         (λ p, ret (Some p, sizeof_handler H)))
          else ret (Some a, cap))
      (λ mem,
         match construct H with
         | None => bind (operator_delete (fst mem)) (λ _, throw HandlerCtor)
         | Some h =>
             bind (placement_new (fst mem) (CancellationHandler h (snd mem)))
               (λ _, match fst mem with
                     | Some a => bind (store l (Some a)) (λ _, ret a)
                     | None => undefined
                     end)
         end) m2.
Proof.
  intros Hl Ho Hlen.
  destruct (vacate_run fuel l a rest m Hl Ho Hlen)
    as (m2 & sz & old & cap & Ha & Hvac & Hl2 & Ha2 & Hrest2 & Ht2 & Ho2).
  exists m2, sz, old, cap. repeat (split; [done|]).
  unfold emplace, prepare_memory, cancellation_signal_slot. cbn [slot_handler_].
  unfold bind at 1 2. unfold deref_loc at 1. rewrite Hl.
  unfold bind at 1. rewrite Hvac. by destruct (construct H).
Qed.

(** The release of an object-less block [a] and the allocation of a new
    block, on a store where the slot is empty and the allocation succeeds. *)
Lemma grow_run l a sz size m :
  load l m = Some None → heap m !! a = Some (Block sz None) →
  head (oracle m) ≠ Some true →
  ∃ p m',
    bind (operator_delete (Some a))
      (λ _, bind (operator_new size) (λ p, ret (Some p, size))) m
      = Ok (Some p, size) m' ∧
    load l m' = Some None ∧ heap m' !! p = Some (Block size None) ∧
    trace m' = trace m ++ [EvDelete a; EvNew p size] ∧
    ∀ x, x ≠ p → heap m' !! x = delete a (heap m) !! x.
Proof.
  intros Hl Ha Hor.
  set (m3 := record (EvDelete a) (set_heap (delete a (heap m)) m)).
  assert (load l m3 = Some None) as Hl3.
  { unfold m3. rewrite load_delete_raw; [done|by rewrite Hl|by exists sz]. }
  set (p := fresh (dom (heap m3))).
  assert (heap m3 !! p = None) as Hp by apply not_elem_of_dom, is_fresh.
  exists p. eexists. split.
  { unfold bind at 1. unfold operator_delete. rewrite Ha. fold m3.
    unfold bind at 1. rewrite operator_new_run by done. fold p. reflexivity. }
  split; [|split; [apply lookup_insert_eq|split]].
  - rewrite <- Hl3. apply load_ext; [done|]. intros b ->. simpl.
    apply lookup_insert_ne. intros ->.
    apply load_LImpl_is_Some in Hl3 as (? & ? & Hb). by rewrite Hp in Hb.
  - simpl. by rewrite <- app_assoc.
  - intros x Hx. simpl. by rewrite lookup_insert_ne.
Qed.

(** When the constructor of the new handler throws on a slot that holds a
    handler, [emplace] throws that after the old handler and all it owned
    have been destroyed and every block, the one prepared for the new
    handler included, has been released. *)
Lemma emplace_occupied_ctor_throws fuel H l a rest sz old cap m :
  load l m = Some (Some a) → owns m a rest → length rest < fuel →
  heap m !! a = Some (Block sz (Some (CancellationHandler old cap))) →
  construct H = None →
  (sizeof_handler H ≤ cap)%N ∨ head (oracle m) ≠ Some true →
  ∃ m' p, emplace fuel H (cancellation_signal_slot l) m = Throw HandlerCtor m' ∧
    load l m' = Some None ∧
    (∀ x, x ∈ a :: rest → heap m' !! x = None) ∧
    heap m' !! p = None ∧
    trace m' = trace m ++ destroy_events a rest ++
      (if (sizeof_handler H <=? cap)%N then [EvDelete a]
       else [EvDelete a; EvNew p (sizeof_handler H); EvDelete p]).
Proof.
  intros Hl Ho Hlen Ha Hc Hcase.
  destruct (emplace_occupied_eq fuel H l a rest m Hl Ho Hlen)
    as (m2 & sz' & old' & cap' & Ha' & Hl2 & Ha2 & Hrest2 & Ht2 & Ho2 & ->).
  rewrite Ha in Ha'. injection Ha' as <- <- <-. rewrite Hc.
  destruct (N.leb_spec (sizeof_handler H) cap) as [Hfit|Hbig].
  - apply N.ltb_ge in Hfit. rewrite Hfit.
    set (m3 := record (EvDelete a) (set_heap (delete a (heap m2)) m2)).
    exists m3, a. split.
    { unfold bind at 1. unfold ret at 1. cbn [fst snd].
      unfold bind, operator_delete. by rewrite Ha2. }
    split; [unfold m3; rewrite load_delete_raw; [done|by rewrite Hl2|by exists sz]|].
    split.
    { intros x Hx. simpl.
      apply elem_of_cons in Hx as [->|Hx]; [apply lookup_delete_eq|].
      rewrite lookup_delete. case_decide; [done|]. by apply Hrest2. }
    split; [apply lookup_delete_eq|]. simpl. rewrite Ht2. by rewrite <- app_assoc.
  - destruct Hcase as [Hfit|Hor]; [lia|]. rewrite <- Ho2 in Hor.
    apply N.ltb_lt in Hbig. rewrite Hbig.
    destruct (grow_run l a sz (sizeof_handler H) m2 Hl2 Ha2 Hor)
      as (p & m4 & Hrun & Hl4 & Hp4 & Ht4 & Hh4).
    set (m5 := record (EvDelete p) (set_heap (delete p (heap m4)) m4)).
    exists m5, p. split.
    { unfold bind at 1. rewrite Hrun. cbn [fst snd].
      unfold bind, operator_delete. by rewrite Hp4. }
    split; [unfold m5; rewrite load_delete_raw; [done|by rewrite Hl4|by eexists]|].
    split.
    { intros x Hx. simpl. rewrite lookup_delete. case_decide; [done|].
      rewrite Hh4 by done.
      apply elem_of_cons in Hx as [->|Hx]; [apply lookup_delete_eq|].
      rewrite lookup_delete. case_decide; [done|]. by apply Hrest2. }
    split; [apply lookup_delete_eq|]. simpl. rewrite Ht4, Ht2.
    by rewrite <- !app_assoc.
Qed.

(** On a connected slot that is empty, or that holds a handler whose
    ownership chain is well formed, [emplace] returns or throws: it is
    neither undefined nor short of fuel. *)
Lemma emplace_returns_or_throws fuel H l m :
  (load l m = Some None ∧ (0 < sizeof_handler H)%N) ∨
  (∃ a rest, load l m = Some (Some a) ∧ owns m a rest ∧ length rest < fuel) →
  ∃ m', (∃ a, emplace fuel H (cancellation_signal_slot l) m = Ok a m') ∨
        (∃ e, emplace fuel H (cancellation_signal_slot l) m = Throw e m').
Proof.
  intros [[Hl Hsz]|(a & rest & Hl & Ho & Hlen)].
  - destruct (decide (head (oracle m) = Some true)) as [Hor|Hor].
    { exists (Machine (signals m) (heap m) (tail (oracle m)) (trace m)).
      right. exists BadAlloc. unfold emplace, prepare_memory. simpl slot_handler_.
      unfold bind at 1 2. unfold deref_loc at 1. rewrite Hl.
      unfold bind at 1. unfold ret at 1. cbn [fst snd].
      apply N.ltb_lt in Hsz. rewrite Hsz.
      unfold bind, operator_delete, operator_new.
      destruct (oracle m) as [|[] o]; simpl in Hor; done. }
    destruct (construct H) as [h|] eqn:Hc.
    { destruct (emplace_on_empty_slot fuel H h l m Hl Hsz Hc Hor) as (m' & He & _).
      exists m'. left. eauto. }
    set (p := fresh (dom (heap m))).
    assert (heap m !! p = None) as Hp by apply not_elem_of_dom, is_fresh.
    exists (Machine (signals m) (heap m) (tail (oracle m))
              (trace m ++ [EvNew p (sizeof_handler H)] ++ [EvDelete p])).
    right. exists HandlerCtor. unfold emplace, prepare_memory. simpl slot_handler_.
    unfold bind at 1 2. unfold deref_loc at 1. rewrite Hl.
    unfold bind at 1. unfold ret at 1. cbn [fst snd].
    apply N.ltb_lt in Hsz. rewrite Hsz.
    unfold bind at 1. unfold operator_delete at 1.
    unfold bind at 1. rewrite operator_new_run by done. fold p.
    unfold ret at 1. rewrite Hc. unfold bind, operator_delete. simpl.
    rewrite lookup_insert_eq. unfold throw, record, set_heap. simpl.
    rewrite delete_insert_id by done. by rewrite <- app_assoc.
  - destruct (emplace_occupied_eq fuel H l a rest m Hl Ho Hlen)
      as (m2 & sz & old & cap & Ha & Hl2 & Ha2 & Hrest2 & Ht2 & Ho2 & He).
    destruct (construct H) as [h|] eqn:Hc.
    + rewrite He. destruct (N.ltb_spec cap (sizeof_handler H)) as [Hbig|Hfit].
      * destruct (decide (head (oracle m2) = Some true)) as [Hor|Hor].
        { set (m3 := record (EvDelete a) (set_heap (delete a (heap m2)) m2)).
          exists (Machine (signals m3) (heap m3) (tail (oracle m3)) (trace m3)).
          right. exists BadAlloc.
          unfold bind, operator_delete. rewrite Ha2. fold m3.
          unfold operator_new. simpl oracle.
          destruct (oracle m2) as [|[] o]; simpl in Hor; done. }
        destruct (grow_run l a sz (sizeof_handler H) m2 Hl2 Ha2 Hor)
          as (p & m4 & Hrun & Hl4 & Hp4 & _).
        destruct (install_run l p (sizeof_handler H)
                    (CancellationHandler h (sizeof_handler H)) m4 Hl4 Hp4)
          as (m5 & Hinst & _).
        exists m5. left. exists p. unfold bind at 1. rewrite Hrun. exact Hinst.
      * destruct (install_run l a sz (CancellationHandler h cap) m2 Hl2 Ha2)
          as (m5 & Hinst & _).
        exists m5. left. exists a. unfold bind at 1. unfold ret at 1. exact Hinst.
    + destruct (N.ltb_spec cap (sizeof_handler H)) as [Hbig|Hfit].
      * destruct (decide (head (oracle m) = Some true)) as [Hor|Hor].
        { rewrite He.
          set (m3 := record (EvDelete a) (set_heap (delete a (heap m2)) m2)).
          exists (Machine (signals m3) (heap m3) (tail (oracle m3)) (trace m3)).
          right. exists BadAlloc.
          unfold bind, operator_delete. rewrite Ha2. fold m3.
          unfold operator_new. simpl oracle. rewrite Ho2.
          destruct (oracle m) as [|[] o]; simpl in Hor; done. }
        destruct (emplace_occupied_ctor_throws fuel H l a rest sz old cap m)
          as (m' & _ & Hthrow & _); auto.
        exists m'. right. eauto.
      * destruct (emplace_occupied_ctor_throws fuel H l a rest sz old cap m)
          as (m' & _ & Hthrow & _); auto.
        exists m'. right. eauto.
Qed.

(** C4: [emplace] on a connected slot never ends half-way.  When it returns,
    the slot holds a fully constructed object of the new handler, in a block
    large enough.  When it throws, the slot is connected and empty.  In both
    cases no block without an object is left in the free store that was not
    there before, and the assertion does not fail.  The failures reach the
    caller: on an empty slot, when [::operator new] throws, [emplace] throws
    [BadAlloc], and when the constructor of the handler throws, [emplace]
    throws that, in both cases with the free store and the caller's signals
    as they were; on a slot that holds a handler too small to be reused,
    when [::operator new] throws, [emplace] throws [BadAlloc] after the old
    handler and all it owned have been destroyed and their blocks
    released; on a slot that holds a handler, when the constructor of the
    new handler throws (the old block being reused, or the allocation of a
    new one having succeeded), [emplace] throws that, with the slot empty,
    after the old handler and all it owned have been destroyed, and with
    every block released, the one prepared for the new handler included.
    Returning and throwing are the only outcomes on a connected slot that
    is empty or holds a handler whose ownership chain is well formed. *)
Theorem emplace_is_atomic fuel H l m :
  match emplace fuel H (cancellation_signal_slot l) m with
  | Ok a m' =>
      load l m' = Some (Some a) ∧
      (∃ h cap sz, construct H = Some h ∧
         heap m' !! a = Some (Block sz (Some (CancellationHandler h cap))) ∧
         (sizeof_handler H ≤ cap)%N) ∧
      ∀ x, raw m' x → raw m x
  | Throw e m' =>
      load l m' = Some None ∧
      has_handler (cancellation_signal_slot l) m' = Some false ∧
      (e = HandlerCtor → construct H = None) ∧
      ∀ x, raw m' x → raw m x
  | AssertFail => False
  | Undefined | OutOfFuel => True
  end ∧
  (load l m = Some None → (0 < sizeof_handler H)%N →
   head (oracle m) = Some true →
   ∃ m', emplace fuel H (cancellation_signal_slot l) m = Throw BadAlloc m' ∧
     heap m' = heap m ∧ signals m' = signals m) ∧
  (load l m = Some None → (0 < sizeof_handler H)%N →
   head (oracle m) ≠ Some true → construct H = None →
   ∃ m', emplace fuel H (cancellation_signal_slot l) m = Throw HandlerCtor m' ∧
     heap m' = heap m ∧ signals m' = signals m) ∧
  (∀ a rest sz old cap,
     load l m = Some (Some a) → owns m a rest → length rest < fuel →
     heap m !! a = Some (Block sz (Some (CancellationHandler old cap))) →
     (cap < sizeof_handler H)%N → head (oracle m) = Some true →
     ∃ m', emplace fuel H (cancellation_signal_slot l) m = Throw BadAlloc m' ∧
       load l m' = Some None ∧
       (∀ x, x ∈ a :: rest → heap m' !! x = None) ∧
       trace m' = trace m ++ destroy_events a rest ++ [EvDelete a]) ∧
  (∀ a rest sz old cap,
     load l m = Some (Some a) → owns m a rest → length rest < fuel →
     heap m !! a = Some (Block sz (Some (CancellationHandler old cap))) →
     construct H = None →
     (sizeof_handler H ≤ cap)%N ∨ head (oracle m) ≠ Some true →
     ∃ m' p, emplace fuel H (cancellation_signal_slot l) m = Throw HandlerCtor m' ∧
       load l m' = Some None ∧
       (∀ x, x ∈ a :: rest → heap m' !! x = None) ∧
       heap m' !! p = None ∧
       trace m' = trace m ++ destroy_events a rest ++
         (if (sizeof_handler H <=? cap)%N then [EvDelete a]
          else [EvDelete a; EvNew p (sizeof_handler H); EvDelete p])) ∧
  ((load l m = Some None ∧ (0 < sizeof_handler H)%N) ∨
   (∃ a rest, load l m = Some (Some a) ∧ owns m a rest ∧ length rest < fuel) →
   ∃ m', (∃ a, emplace fuel H (cancellation_signal_slot l) m = Ok a m') ∨
         (∃ e, emplace fuel H (cancellation_signal_slot l) m = Throw e m')).
Proof.
  split; [|split; [|split; [|split; [|split]]]].
  - destruct (emplace fuel H (cancellation_signal_slot l) m) as [a m'|e m'| | |] eqn:He;
      try done.
    + split; [|split].
      * by apply emplace_Ok in He as (h & cap & sz & _ & Hl & _).
      * apply emplace_Ok in He as (h & cap & sz & ? & _ & ? & ? & _). eauto 6.
      * intros x Hx. unfold emplace in He. inv_bind He as mem m1 Hprep.
        pose proof (λ x, prepare_memory_raw _ _ _ _ _ _ x Hprep) as Hmono.
        destruct (construct H) as [h|]; [|inv_bind He as [] ? Hx'; discriminate].
        inv_bind He as [] m2 Hpl.
        apply placement_new_Ok in Hpl as (p & sz & old & Hp & Hblk & ->).
        rewrite Hp in He, Hmono. simpl in He. inv_bind He as [] m3 Hst.
        apply ret_Ok in He as [<- <-].
        eapply store_raw in Hx; [|exact Hst]. destruct Hx as (szx & Hx).
        simpl in Hx. rewrite lookup_insert in Hx. case_decide as Hpx; [done|].
        apply Hmono; [by exists szx|congruence].
    + assert (load l m' = Some None ∧ (e = HandlerCtor → construct H = None) ∧
              ∀ x, raw m' x → raw m x) as (Hl & Hc & Hraw).
      { unfold emplace in He.
        apply bind_Throw in He as [He|(mem & m1 & Hprep & He)].
        { apply prepare_memory_Throw in He as (-> & ? & ?). done. }
        pose proof (λ x, prepare_memory_raw _ _ _ _ _ _ x Hprep) as Hmono.
        apply prepare_memory_Ok in Hprep as (Hl1 & _ & Hp).
        destruct (construct H) as [h|].
        { apply bind_Throw in He as [He|(? & ? & _ & He)];
            [by apply placement_new_no_Throw in He|].
          destruct (fst mem); [|discriminate].
          apply bind_Throw in He as [He|(? & ? & _ & He)];
            [by apply store_no_Throw in He|discriminate]. }
        apply bind_Throw in He as [He|([] & m2 & Hdel & He)];
          [by apply operator_delete_no_Throw in He|].
        injection He as <- <-. split; [|split; [done|]].
        - apply operator_delete_Ok in Hdel. destruct (fst mem) as [p|]; [|by subst].
          destruct Hdel as [_ ->]. by rewrite load_delete_raw.
        - intros x (szx & Hx). apply operator_delete_Ok in Hdel.
          destruct (fst mem) as [p|] eqn:Ep.
          + destruct Hdel as [_ ->]. simpl in Hx. rewrite lookup_delete in Hx.
            case_decide; [done|]. apply Hmono; [by exists szx|congruence].
          + subst m2. apply Hmono; [by exists szx|done]. }
      split; [done|]. split; [|done]. unfold has_handler. simpl. by rewrite Hl.
    + by apply emplace_no_Assert in He.
  - intros Hl Hsz Hor.
    exists (Machine (signals m) (heap m) (tail (oracle m)) (trace m)).
    split; [|done]. unfold emplace, prepare_memory. simpl slot_handler_.
    unfold bind at 1 2. unfold deref_loc at 1. rewrite Hl.
    unfold bind at 1. unfold ret at 1. cbn [fst snd].
    apply N.ltb_lt in Hsz. rewrite Hsz.
    unfold bind, operator_delete, operator_new.
    destruct (oracle m) as [|[] o]; simpl in Hor; done.
  - intros Hl Hsz Hor Hc.
    set (p := fresh (dom (heap m))).
    assert (heap m !! p = None) as Hp by apply not_elem_of_dom, is_fresh.
    exists (Machine (signals m) (heap m) (tail (oracle m))
              (trace m ++ [EvNew p (sizeof_handler H)] ++ [EvDelete p])).
    split; [|done]. unfold emplace, prepare_memory. simpl slot_handler_.
    unfold bind at 1 2. unfold deref_loc at 1. rewrite Hl.
    unfold bind at 1. unfold ret at 1. cbn [fst snd].
    apply N.ltb_lt in Hsz. rewrite Hsz.
    unfold bind at 1. unfold operator_delete at 1.
    unfold bind at 1. rewrite operator_new_run by done. fold p.
    unfold ret at 1. rewrite Hc. unfold bind, operator_delete. simpl.
    rewrite lookup_insert_eq. unfold throw, record, set_heap. simpl.
    rewrite delete_insert_id by done. by rewrite <- app_assoc.
  - intros a rest sz old cap Hl Ho Hlen Ha Hbig Hor.
    destruct (vacate_run fuel l a rest m Hl Ho Hlen)
      as (m2 & sz' & old' & cap' & Ha' & Hvac & Hl2 & Ha2 & Hrest2 & Ht2 & Ho2).
    rewrite Ha in Ha'. injection Ha' as <- <- <-.
    set (m3 := record (EvDelete a) (set_heap (delete a (heap m2)) m2)).
    exists (Machine (signals m3) (heap m3) (tail (oracle m3)) (trace m3)).
    split; [|split; [|split]].
    + unfold emplace, prepare_memory. simpl slot_handler_.
      unfold bind at 1 2. unfold deref_loc at 1. rewrite Hl.
      unfold bind at 1. rewrite Hvac. cbn [fst snd].
      apply N.ltb_lt in Hbig. rewrite Hbig.
      unfold bind, operator_delete. rewrite Ha2. fold m3.
      unfold operator_new. simpl oracle. rewrite Ho2.
      destruct (oracle m) as [|[] o]; done.
    + assert (load l m3 = Some None) as <-.
      { unfold m3. rewrite load_delete_raw; [done|by rewrite Hl2|by exists sz]. }
      by apply load_ext.
    + intros x Hx. simpl.
      apply elem_of_cons in Hx as [->|Hx]; [apply lookup_delete_eq|].
      rewrite lookup_delete. case_decide; [done|]. by apply Hrest2.
    + simpl. rewrite Ht2. by rewrite <- app_assoc.
  - intros a rest sz old cap. apply emplace_occupied_ctor_throws.
  - apply emplace_returns_or_throws.
Qed.

(** ** clear and the destructor of a signal *)

(** [clear()] on a slot that holds the head of an ownership chain destroys
    every object of the chain and releases every block of it. *)
Lemma clear_owns fuel l a rest m :
  load l m = Some (Some a) → owns m a rest → length rest < fuel →
  ∃ m', clear fuel (cancellation_signal_slot l) m = Ok tt m' ∧
    load l m' = Some None ∧
    (∀ x, x ∈ a :: rest → heap m' !! x = None) ∧
    trace m' = trace m ++ destroy_events a rest ++ [EvDelete a].
Proof.
  intros Hl Ho Hlen.
  destruct (destroy_owns rest a m fuel Ho Hlen)
    as (m1 & sz & old & cap & Ha & Hd & Hs1 & Ho1 & Ht1 & Hh1).
  pose proof (λ b, owner_outside m l a rest b Hl Ho) as Hout.
  set (m2 := record (EvDelete a) (set_heap (delete a (heap m1)) m1)).
  assert (heap m1 !! a = Some (Block sz None)) as Ha1.
  { rewrite (Hh1 a). destruct (decide (a ∈ rest)) as [Hin|_];
      [by apply owns_head_not_in in Ho|]. by destruct (decide (a = a)). }
  assert (load l m2 = Some (Some a)) as Hl2.
  { rewrite <- Hl. unfold m2. rewrite load_record.
    apply load_ext; [intros; simpl; by rewrite Hs1|].
    intros b Hb. specialize (Hout b Hb). apply not_elem_of_cons in Hout as [? ?].
    simpl. rewrite lookup_delete_ne by done. rewrite (Hh1 b).
    destruct (decide (b ∈ rest)); [done|]. by destruct (decide (b = a)). }
  exists (write l None m2). split.
  { unfold clear, cancellation_signal_slot. cbn [slot_handler_].
    unfold bind at 1. unfold deref_loc. rewrite Hl.
    unfold bind at 1. rewrite Hd. unfold bind, operator_delete. simpl fst.
    cbv beta iota. rewrite Ha1. fold m2. by rewrite (store_run _ _ _ _ Hl2). }
  split; [by eapply load_write|]. split.
  - intros x Hx. apply heap_write_None. simpl.
    apply elem_of_cons in Hx as [->|Hx]; [apply lookup_delete_eq|].
    rewrite lookup_delete. case_decide; [done|]. rewrite (Hh1 x).
    by destruct (decide (x ∈ rest)).
  - assert (trace (write l None m2) = trace m2) as -> by (by destruct l).
    simpl. rewrite Ht1. by rewrite <- app_assoc.
Qed.

(** The destructor of a caller's signal does the same. *)
Lemma signal_dtor_owns fuel n a rest m :
  load (LSig n) m = Some (Some a) → owns m a rest → length rest < fuel →
  ∃ m', cancellation_signal_dtor fuel n m = Ok tt m' ∧
    load (LSig n) m' = None ∧
    (∀ x, x ∈ a :: rest → heap m' !! x = None).
Proof.
  intros Hl Ho Hlen.
  destruct (destroy_owns rest a m fuel Ho Hlen)
    as (m1 & sz & old & cap & Ha & Hd & Hs1 & Ho1 & Ht1 & Hh1).
  assert (heap m1 !! a = Some (Block sz None)) as Ha1.
  { rewrite (Hh1 a). destruct (decide (a ∈ rest)) as [Hin|_];
      [by apply owns_head_not_in in Ho|]. by destruct (decide (a = a)). }
  eexists. split.
  { unfold cancellation_signal_dtor. unfold bind at 1. unfold deref_loc. rewrite Hl.
    unfold bind at 1. unfold signal_dtor. unfold bind at 1. rewrite Hd.
    unfold operator_delete. simpl fst. cbv beta iota. rewrite Ha1. reflexivity. }
  split; [simpl; apply lookup_delete_eq|].
  intros x Hx. simpl.
  apply elem_of_cons in Hx as [->|Hx]; [apply lookup_delete_eq|].
  rewrite lookup_delete. case_decide; [done|]. rewrite (Hh1 x).
  by destruct (decide (x ∈ rest)).
Qed.

(** ** Signals without a handler *)

(** C9: a signal that was just constructed has no handler; on a signal with
    no handler [emit()] returns having called nothing and written nothing
    (only the emission itself is recorded), and [clear()] returns leaving the
    store as it is; after any [clear()] that returned, the signal has no
    handler, so both hold there; and [clear()] does return on a slot that
    holds a handler (whose ownership chain is well formed). *)
Theorem emit_and_clear_on_empty_signal :
  (∀ m n m1, cancellation_signal_ctor m = Ok n m1 → load (LSig n) m1 = Some None) ∧
  (∀ fuel l m, load l m = Some None →
     emit (S fuel) l m = Ok tt (record (EvEmit l) m) ∧
     clear fuel (cancellation_signal_slot l) m = Ok tt m) ∧
  (∀ fuel l m m1, clear fuel (cancellation_signal_slot l) m = Ok tt m1 →
     load l m1 = Some None ∧
     has_handler (cancellation_signal_slot l) m1 = Some false ∧
     (∀ fuel', emit (S fuel') l m1 = Ok tt (record (EvEmit l) m1)) ∧
     (∀ fuel', clear fuel' (cancellation_signal_slot l) m1 = Ok tt m1)) ∧
  (∀ fuel l a rest m,
     load l m = Some (Some a) → owns m a rest → length rest < fuel →
     ∃ m1, clear fuel (cancellation_signal_slot l) m = Ok tt m1).
Proof.
  assert (Hempty : ∀ fuel l m, load l m = Some None →
     emit (S fuel) l m = Ok tt (record (EvEmit l) m) ∧
     clear fuel (cancellation_signal_slot l) m = Ok tt m).
  { intros fuel l m Hl. split.
    - simpl. unfold bind, tell, deref_loc. by rewrite load_record, Hl.
    - unfold clear, bind, deref_loc. simpl. by rewrite Hl. }
  split; [|split; [exact Hempty|split]].
  - intros m n m1 [= <- <-]. simpl. apply lookup_insert_eq.
  - intros fuel l m m1 Hc.
    assert (Hl : load l m1 = Some None).
    { unfold clear in Hc. simpl in Hc.
      inv_bind Hc as cur ? Hcur. apply deref_loc_Ok in Hcur as [Hcur ->].
      destruct cur as [a|].
      - inv_bind Hc as mem m2 Hd. inv_bind Hc as [] m3 Hdel.
        by apply load_store_eq in Hc.
      - by apply ret_Ok in Hc as [_ <-]. }
    split; [exact Hl|]. split; [unfold has_handler; simpl; by rewrite Hl|].
    split; intros fuel'; by apply Hempty.
  - intros fuel l a rest m Hl Ho Hlen.
    destruct (clear_owns fuel l a rest m Hl Ho Hlen) as (m1 & Hc & _). eauto.
Qed.

(** ** Who owns the signal of a state *)

(** C6, as the code has it: the signal of a state is a member of the
    forwarding handler installed in the parent slot, and the state only
    points to it.  Destroying the state returns with the store as it was, so
    the signal and all it owns stay.  They are destroyed, and their blocks
    released, with the forwarding handler: by [clear()] on the parent slot
    and by the destructor of the parent signal. *)
Theorem state_signal_dies_with_forwarding_handler fuel l a rest st m :
  impl_ st = Some a →
  load l m = Some (Some a) → owns m a rest → length rest < fuel →
  cancellation_state_dtor st m = Ok tt m ∧
  (∃ m', clear fuel (cancellation_signal_slot l) m = Ok tt m' ∧
     load l m' = Some None ∧
     (∀ x, x ∈ a :: rest → heap m' !! x = None) ∧
     trace m' = trace m ++ destroy_events a rest ++ [EvDelete a]) ∧
  (∀ n, l = LSig n →
     ∃ m', cancellation_signal_dtor fuel n m = Ok tt m' ∧
       load l m' = None ∧
       (∀ x, x ∈ a :: rest → heap m' !! x = None)).
Proof.
  intros _ Hl Ho Hlen. split; [done|]. split.
  - by apply clear_owns.
  - intros n ->. by apply signal_dtor_owns.
Qed.

(** C6 as stated fails: after the state is destroyed, its signal is still
    there with the handler installed in it, and an emission on the parent
    signal still reaches that handler. *)
Lemma state_dtor_keeps_signal_and_handler :
  ¬ (∀ sig st m1 m2,
       state_with_nested_handler init = Ok (sig, st) m1 →
       cancellation_state_dtor st m1 = Ok tt m2 →
       has_handler (state_slot st) m2 ≠ Some true).
Proof.
  intros Hall.
  destruct (state_with_nested_handler init) as [[sig st] m1| | | |] eqn:E;
    try (vm_compute in E; discriminate).
  apply (Hall sig st m1 m1 eq_refl eq_refl).
  vm_compute in E. injection E as <- <- <-. vm_compute. reflexivity.
Qed.

(** ** Emission leaves the handler installed *)

Lemma calls_cons a e t :
  calls a (e :: t) = (if decide (e = EvCall a) then 1 else 0) + calls a t.
Proof.
  unfold calls. destruct (decide (e = EvCall a)).
  - by rewrite filter_cons_True.
  - by rewrite filter_cons_False.
Qed.

Lemma calls_app a t1 t2 : calls a (t1 ++ t2) = calls a t1 + calls a t2.
Proof. unfold calls. by rewrite filter_app, length_app. Qed.

Lemma calls_emit b l t : calls b (EvEmit l :: t) = calls b t.
Proof. rewrite calls_cons. by rewrite decide_False. Qed.

Lemma calls_call b a t :
  calls b (EvCall a :: t) = (if decide (b = a) then 1 else 0) + calls b t.
Proof.
  rewrite calls_cons. destruct (decide (b = a)) as [->|Hne].
  - by rewrite decide_True.
  - rewrite decide_False; [done|]. congruence.
Qed.

Lemma child_of_set_cancelled_ m a b :
  child_of <$> handler_at b (cancel_at a m) = child_of <$> handler_at b m.
Proof.
  rewrite handler_at_cancel_at. by destruct (handler_at b m) as [[s c|id]|].
Qed.

Lemma owns_child_ext m m' :
  (∀ b, child_of <$> handler_at b m' = child_of <$> handler_at b m) →
  ∀ rest a, owns m a rest → owns m' a rest.
Proof.
  intros Hch. induction rest as [|c rest IH]; intros a; simpl; rewrite Hch; [done|].
  intros (? & ? & ?). auto.
Qed.

Lemma owns_cancel_at m a : ∀ rest b, owns m b rest → owns (cancel_at a m) b rest.
Proof.
  induction rest as [|c rest IH]; intros b; simpl; rewrite child_of_set_cancelled_;
    [done|]. intros (? & ? & ?). auto.
Qed.

Lemma set_cancelled__idemp b : set_cancelled_ (set_cancelled_ b) = set_cancelled_ b.
Proof. by destruct b as [sz [[[s c|id] cap]|]]. Qed.

(** One emission on a signal that holds the head of an ownership chain
    returns; it calls every handler of the chain once, latches the
    forwarding handlers among them, and writes nothing else. *)
Lemma emit_owns rest : ∀ a l m fuel,
  load l m = Some (Some a) → owns m a rest → S (length rest) < fuel →
  ∃ m' evs, emit fuel l m = Ok tt m' ∧
    trace m' = trace m ++ evs ∧
    (∀ b, calls b evs = if decide (b ∈ a :: rest) then 1 else 0) ∧
    signals m' = signals m ∧ oracle m' = oracle m ∧
    ∀ x, heap m' !! x =
      if decide (x ∈ a :: rest) then set_cancelled_ <$> heap m !! x
      else heap m !! x.
Proof.
  induction rest as [|c rest IH]; intros a l m fuel Hl Ho Hlen;
    (destruct fuel as [|fuel]; [simpl in Hlen; lia|]);
    rewrite emit_S, Hl, call_eq, handler_at_record.
  - simpl in Ho. destruct (handler_at a m) as [[[c|] fl|id]|] eqn:Hh; try discriminate.
    + destruct fuel as [|fuel]; [simpl in Hlen; lia|].
      rewrite emit_S. simpl load.
      rewrite handler_at_cancel_at, !handler_at_record, Hh.
      eexists _, [EvEmit l; EvCall a; EvEmit (LImpl a)].
      split; [done|]. split; [simpl; by rewrite <- !app_assoc|].
      split; [|split; [done|split; [done|]]].
      * intros b. rewrite calls_emit, calls_call, calls_emit.
        repeat case_decide; try done; set_solver.
      * intros x. simpl. rewrite lookup_alter.
        repeat case_decide; try done; set_solver.
    + eexists _, [EvEmit l; EvCall a].
      split; [done|]. split; [simpl; by rewrite <- !app_assoc|].
      split; [|split; [done|split; [done|]]].
      * intros b. rewrite calls_emit, calls_call.
        repeat case_decide; try done; set_solver.
      * intros x. simpl.
        destruct (decide (x ∈ [a])) as [->%list_elem_of_singleton|Hx]; [|done].
        apply handler_at_Some in Hh as (sz & cap & ->). done.
  - destruct Ho as (Hch & Hnotin & Hoc).
    destruct (handler_at a m) as [[s fl|id]|] eqn:Hh; try discriminate.
    simpl in Hch. injection Hch as ->.
    set (m1 := cancel_at a (record (EvCall a) (record (EvEmit l) m))).
    destruct (IH c (LImpl a) m1 fuel) as (m' & evs & He & Ht & Hcalls & Hs & Hor & Hheap).
    { unfold m1. simpl. by rewrite handler_at_cancel_at, !handler_at_record, Hh. }
    { apply owns_cancel_at. by eapply owns_ext; [|exact Hoc]. }
    { simpl in Hlen. lia. }
    exists m', ([EvEmit l; EvCall a] ++ evs).
    split; [exact He|]. split; [rewrite Ht; simpl; by rewrite <- !app_assoc|].
    split; [|split; [done|split; [done|]]].
    + intros b. simpl. rewrite calls_emit, calls_call, Hcalls.
      repeat case_decide; try done; set_solver.
    + intros x. rewrite Hheap. unfold m1. simpl. rewrite lookup_alter.
      repeat case_decide; try done; set_solver.
Qed.

(** C10: on a signal that holds a handler (whose ownership chain is well
    formed), [k] successive emissions return; afterwards the slot still holds
    the same handler object, [has_handler()] is true, that object has been
    called exactly [k] times, and the store differs only by the latches of
    the forwarding handlers that were called: no signal has changed, nothing
    was allocated or released. *)
Theorem emit_keeps_handler_installed fuel k l a rest m :
  load l m = Some (Some a) → owns m a rest → S (length rest) < fuel →
  ∃ m' evs, emit_n fuel k l m = Ok tt m' ∧
    load l m' = Some (Some a) ∧
    has_handler (cancellation_signal_slot l) m' = Some true ∧
    owns m' a rest ∧
    trace m' = trace m ++ evs ∧
    calls a evs = k ∧
    signals m' = signals m ∧ oracle m' = oracle m ∧
    (∀ l', load l' m' = load l' m) ∧
    ∀ x, heap m' !! x =
      if decide (x ∈ a :: rest ∧ 0 < k) then set_cancelled_ <$> heap m !! x
      else heap m !! x.
Proof.
  intros Hl Ho Hlen. revert m Hl Ho.
  induction k as [|k IH]; intros m Hl Ho.
  - exists m, []. simpl. unfold ret. split; [done|]. split; [done|].
    split; [unfold has_handler; simpl; by rewrite Hl|].
    split; [done|]. split; [by rewrite app_nil_r|]. repeat split; try done.
    intros x. rewrite decide_False; [done|]. intros [_ ?]. lia.
  - destruct (emit_owns rest a l m fuel Hl Ho Hlen)
      as (m1 & evs1 & He & Ht1 & Hc1 & Hs1 & Ho1 & Hh1).
    assert (∀ b, handler_at b m1 =
                 if decide (b ∈ a :: rest)
                 then (λ h, match h with Impl s _ => Impl s true | User id => User id end)
                        <$> handler_at b m
                 else handler_at b m) as Hat.
    { intros b. unfold handler_at, object_at. rewrite (Hh1 b).
      destruct (decide (b ∈ a :: rest)); [|done].
      by destruct (heap m !! b) as [[sz [[[s c|id] cap]|]]|]. }
    assert (∀ l', load l' m1 = load l' m) as Hload.
    { intros [n|b]; simpl; [by rewrite Hs1|]. rewrite Hat.
      destruct (decide (b ∈ a :: rest)); [|done].
      by destruct (handler_at b m) as [[s c|id]|]. }
    assert (owns m1 a rest) as Ho'.
    { eapply owns_child_ext; [|exact Ho]. intros b. rewrite Hat.
      destruct (decide (b ∈ a :: rest)); [|done].
      by destruct (handler_at b m) as [[s c|id]|]. }
    destruct (IH m1) as (m' & evs & Hn & Hl' & Hhas & Hown & Ht & Hc & Hs & Hor & Hld & Hh).
    { by rewrite Hload. }
    { exact Ho'. }
    exists m', (evs1 ++ evs). split.
    { simpl. unfold bind. by rewrite He. }
    split; [exact Hl'|]. split; [exact Hhas|]. split; [exact Hown|].
    split; [by rewrite Ht, Ht1, app_assoc|]. split.
    { rewrite calls_app, Hc, Hc1. by rewrite decide_True by apply list_elem_of_here. }
    split; [congruence|]. split; [congruence|]. split.
    { intros l'. by rewrite Hld. }
    intros x. rewrite Hh, (Hh1 x).
    destruct (decide (x ∈ a :: rest)) as [Hin|Hnin].
    + rewrite (decide_True (P := x ∈ a :: rest ∧ 0 < S k)) by (split; [done|lia]).
      destruct (decide (x ∈ a :: rest ∧ 0 < k)); [|done].
      rewrite <- option_fmap_compose.
      apply option_fmap_ext. intros b. apply set_cancelled__idemp.
    + rewrite decide_False by (by intros [? _]).
      by rewrite decide_False by (by intros [? _]).
Qed.

Lemma state_latches_and_forwards_witness :
  ∃ st m1,
    cancellation_state_ctor 32 0 (cancellation_signal_slot (LSig 0)) one_signal = Ok st m1 ∧
    ∃ a, state_slot st = cancellation_signal_slot (LImpl a) ∧
      cancelled st m1 = Some false ∧
      ∀ f1 f2, ∃ m2 m3,
        emit (S (S f1)) (LSig 0) m1 = Ok tt m2 ∧
        cancelled st m2 = Some true ∧
        trace m2 = trace m1 ++ [EvEmit (LSig 0); EvCall a; EvEmit (LImpl a)] ∧
        emissions (LImpl a) (trace m2) = emissions (LImpl a) (trace m1) + 1 ∧
        emit (S (S f2)) (LSig 0) m2 = Ok tt m3 ∧
        cancelled st m3 = Some true ∧
        trace m3 = trace m2 ++ [EvEmit (LSig 0); EvCall a; EvEmit (LImpl a)] ∧
        emissions (LImpl a) (trace m3) = emissions (LImpl a) (trace m1) + 2.
Proof.
  eexists _, _. split; [vm_compute; reflexivity|].
  apply (proj1 (state_latches_and_forwards 32 0 (LSig 0) one_signal)).
  vm_compute. reflexivity.
Defined.

Lemma chain_emit_cancels_every_state_witness :
  ∃ states m',
    build_chain 32 0 2 (cancellation_signal_slot (LSig 0)) one_signal = Ok states m' ∧
    length states = 2 ∧
    ∀ f, 2 < f →
      ∃ m'', emit f (LSig 0) m' = Ok tt m'' ∧
        Forall (λ st, cancelled st m'' = Some true) states.
Proof.
  eexists _, _. split; [vm_compute; reflexivity|].
  apply (proj1 (chain_emit_cancels_every_state 32 0 1 (LSig 0) one_signal)).
  vm_compute. reflexivity.
Defined.


Lemma emplace_is_atomic_witness :
  (∃ m', emplace 0 (impl_type 32) (cancellation_signal_slot (LSig 0)) one_signal_oom
          = Throw BadAlloc m' ∧
    heap m' = heap one_signal_oom ∧ signals m' = signals one_signal_oom) ∧
  load (LSig 0) nested = Some (Some 1%positive) ∧ owns nested 1 [2%positive] ∧
  construct (HandlerType 24 None) = None ∧
  ∃ m' p, emplace 2 (HandlerType 24 None) (cancellation_signal_slot (LSig 0)) nested
          = Throw HandlerCtor m' ∧
    load (LSig 0) m' = Some None ∧
    (∀ x, x ∈ [1%positive; 2%positive] → heap m' !! x = None) ∧
    heap m' !! p = None ∧
    trace m' = trace nested ++ destroy_events 1 [2%positive] ++ [EvDelete 1].
Proof.
  assert (owns nested 1 [2%positive]) as Ho.
  { split; [reflexivity|]. split; [|reflexivity].
    apply (bool_decide_unpack _). reflexivity. }
  split; [|split; [reflexivity|split; [exact Ho|split; [reflexivity|]]]].
  - apply (proj1 (proj2 (emplace_is_atomic 0 (impl_type 32) (LSig 0) one_signal_oom))).
    + reflexivity.
    + reflexivity.
    + reflexivity.
  - apply (proj1 (proj2 (proj2 (proj2 (proj2
             (emplace_is_atomic 2 (HandlerType 24 None) (LSig 0) nested)))))
             1%positive [2%positive] 32%N (Impl (Some 2%positive) false) 32%N).
    + reflexivity.
    + exact Ho.
    + simpl. lia.
    + reflexivity.
    + reflexivity.
    + left. simpl. lia.
Defined.

Lemma state_signal_dies_with_forwarding_handler_witness :
  load (LSig 0) nested = Some (Some 1%positive) ∧ owns nested 1 [2%positive] ∧
  ∃ m', clear 2 (cancellation_signal_slot (LSig 0)) nested = Ok tt m' ∧
    load (LSig 0) m' = Some None ∧
    (∀ x, x ∈ [1%positive; 2%positive] → heap m' !! x = None) ∧
    trace m' = trace nested ++ destroy_events 1 [2%positive] ++ [EvDelete 1].
Proof.
  assert (owns nested 1 [2%positive]) as Ho.
  { split; [reflexivity|]. split; [|reflexivity].
    apply (bool_decide_unpack _). reflexivity. }
  split; [reflexivity|]. split; [exact Ho|].
  apply (state_signal_dies_with_forwarding_handler 2 (LSig 0) 1 [2%positive]
           (State (Some 1%positive)) nested).
  - reflexivity.
  - reflexivity.
  - exact Ho.
  - simpl. lia.
Defined.

Lemma emit_and_clear_on_empty_signal_witness :
  load (LSig 0) one_signal = Some None ∧
  emit 1 (LSig 0) one_signal = Ok tt (record (EvEmit (LSig 0)) one_signal) ∧
  clear 0 (cancellation_signal_slot (LSig 0)) one_signal = Ok tt one_signal.
Proof.
  split; [reflexivity|].
  apply (proj1 (proj2 emit_and_clear_on_empty_signal) 0 (LSig 0) one_signal).
  reflexivity.
Defined.

Lemma emit_keeps_handler_installed_witness :
  load (LSig 0) nested = Some (Some 1%positive) ∧ owns nested 1 [2%positive] ∧
  ∃ m' evs, emit_n 3 3 (LSig 0) nested = Ok tt m' ∧
    load (LSig 0) m' = Some (Some 1%positive) ∧
    has_handler (cancellation_signal_slot (LSig 0)) m' = Some true ∧
    owns m' 1 [2%positive] ∧
    trace m' = trace nested ++ evs ∧
    calls 1 evs = 3 ∧
    signals m' = signals nested ∧ oracle m' = oracle nested ∧
    (∀ l', load l' m' = load l' nested) ∧
    ∀ x, heap m' !! x =
      if decide (x ∈ [1%positive; 2%positive] ∧ 0 < 3)
      then set_cancelled_ <$> heap nested !! x
      else heap nested !! x.
Proof.
  assert (owns nested 1 [2%positive]) as Ho.
  { split; [reflexivity|]. split; [|reflexivity].
    apply (bool_decide_unpack _). reflexivity. }
  split; [reflexivity|]. split; [exact Ho|].
  apply (emit_keeps_handler_installed 3 3 (LSig 0) 1 [2%positive] nested).
  - reflexivity.
  - exact Ho.
  - simpl. lia.
Defined.

(** * Further properties of the code *)

(** ** emplace on an empty slot *)

(** What has to hold for [emplace] to return on an empty slot. *)
Lemma emplace_empty_inv fuel H l m a m' :
  load l m = Some None →
  emplace fuel H (cancellation_signal_slot l) m = Ok a m' →
  (0 < sizeof_handler H)%N ∧ head (oracle m) ≠ Some true ∧
  ∃ h, construct H = Some h.
Proof.
  intros Hl He.
  destruct (emplace_Ok _ _ _ _ _ _ He) as (h & _ & _ & Hc & _).
  split; [|split; [|eauto]].
  - destruct (N.ltb_spec 0 (sizeof_handler H)) as [|Hz]; [done|]. exfalso.
    unfold emplace, prepare_memory, cancellation_signal_slot in He.
    cbn [slot_handler_] in He. rewrite Hc in He.
    unfold bind at 1 2 in He. unfold deref_loc at 1 in He. rewrite Hl in He.
    unfold bind at 1 in He. unfold ret at 1 in He. cbn [fst snd] in He.
    apply N.ltb_ge in Hz. rewrite Hz in He. discriminate.
  - intros Hor.
    unfold emplace, prepare_memory, cancellation_signal_slot in He.
    cbn [slot_handler_] in He.
    unfold bind at 1 2 in He. unfold deref_loc at 1 in He. rewrite Hl in He.
    unfold bind at 1 in He. unfold ret at 1 in He. cbn [fst snd] in He.
    destruct (0 <? sizeof_handler H)%N.
    + unfold bind at 1 2 in He. unfold operator_delete, operator_new in He.
      destruct (oracle m) as [|[] o]; simpl in Hor; try done.
    + rewrite Hc in He. discriminate.
Qed.

(** The store [emplace] leaves when it returns on an empty slot. *)
Lemma emplace_empty_eq fuel H l m a m' :
  load l m = Some None →
  emplace fuel H (cancellation_signal_slot l) m = Ok a m' →
  ∃ h, construct H = Some h ∧ a = fresh (dom (heap m)) ∧ heap m !! a = None ∧
    m' = installed l a (sizeof_handler H)
           (CancellationHandler h (sizeof_handler H)) m.
Proof.
  intros Hl He.
  destruct (emplace_empty_inv _ _ _ _ _ _ Hl He) as (Hsz & Hor & h & Hc).
  exists h. split; [done|].
  set (p := fresh (dom (heap m))).
  assert (heap m !! p = None) as Hp by apply not_elem_of_dom, is_fresh.
  set (obj := CancellationHandler h (sizeof_handler H)).
  set (m1 := Machine (signals m) (<[p := Block (sizeof_handler H) (Some obj)]> (heap m))
               (tail (oracle m)) (trace m ++ [EvNew p (sizeof_handler H)])).
  assert (load l m1 = Some None) as Hl1.
  { rewrite <- Hl. apply load_ext; [done|]. intros b ->. simpl.
    rewrite lookup_insert_ne; [done|]. intros ->.
    apply load_LImpl_is_Some in Hl as (? & ? & Hb). congruence. }
  assert (emplace fuel H (cancellation_signal_slot l) m = Ok p (write l (Some p) m1)) as Hrun.
  { unfold emplace, prepare_memory, cancellation_signal_slot. cbn [slot_handler_].
    unfold bind at 1 2. unfold deref_loc at 1. rewrite Hl.
    unfold bind at 1. unfold ret at 1. cbn [fst snd].
    apply N.ltb_lt in Hsz. rewrite Hsz.
    unfold bind at 1. unfold operator_delete at 1.
    unfold bind at 1. rewrite operator_new_run by done. fold p.
    unfold ret at 1. rewrite Hc. cbn [fst snd].
    unfold bind at 1. unfold placement_new. simpl heap.
    rewrite lookup_insert_eq. unfold set_heap. simpl.
    rewrite insert_insert_eq. fold obj. fold m1.
    unfold bind. by rewrite (store_run _ _ _ _ Hl1). }
  rewrite Hrun in He. injection He as <- <-. done.
Qed.

Lemma heap_write_lookup l v m x :
  heap (write l v m) !! x =
  if decide (l = LImpl x) then set_signal_ v <$> heap m !! x else heap m !! x.
Proof.
  destruct l as [n|b]; simpl.
  - done.
  - rewrite lookup_alter. destruct (decide (b = x)) as [->|Hne].
    + by rewrite decide_True.
    + rewrite decide_False; [done|]. congruence.
Qed.

Lemma signals_write l v m :
  signals (write l v m) =
  match l with
  | LSig n => <[n := v]> (signals m)
  | LImpl _ => signals m
  end.
Proof. by destruct l. Qed.

Lemma trace_write l v m : trace (write l v m) = trace m.
Proof. by destruct l. Qed.

Lemma oracle_write l v m : oracle (write l v m) = oracle m.
Proof. by destruct l. Qed.

(** Writing a signal's [handler_] twice is writing it once. *)
Lemma set_signal__twice v w b : set_signal_ v (set_signal_ w b) = set_signal_ v b.
Proof. by destruct b as [sz [[[s c|id] cap]|]]. Qed.

(** Writing back what a signal holds changes nothing. *)
Lemma set_signal__same a m v b :
  load (LImpl a) m = Some v → heap m !! a = Some b → set_signal_ v b = b.
Proof.
  intros (c & Hh)%load_LImpl Hb. apply handler_at_Some in Hh as (sz & cap & Hh).
  rewrite Hh in Hb. by injection Hb as <-.
Qed.

Lemma heap_installed l p size obj m x :
  load l m = Some None → heap m !! p = None →
  heap (installed l p size obj m) !! x =
  if decide (x = p) then Some (Block size (Some obj))
  else if decide (l = LImpl x) then set_signal_ (Some p) <$> heap m !! x
  else heap m !! x.
Proof.
  intros Hl Hp. unfold installed. rewrite heap_write_lookup. simpl.
  destruct (decide (x = p)) as [->|Hne].
  - rewrite decide_False; [apply lookup_insert_eq|]. intros ->.
    apply load_LImpl_is_Some in Hl as (? & ? & Hb). congruence.
  - by rewrite lookup_insert_ne.
Qed.

Lemma load_installed l p size obj m :
  load l m = Some None → heap m !! p = None →
  load l (installed l p size obj m) = Some (Some p).
Proof.
  intros Hl Hp. unfold installed. eapply load_write.
  rewrite <- Hl. apply load_ext; [done|]. intros b ->. simpl.
  rewrite lookup_insert_ne; [done|]. intros ->.
  apply load_LImpl_is_Some in Hl as (? & ? & Hb). congruence.
Qed.

(** [clear()] on a slot that holds a handler, once [destroy()] has returned. *)
Lemma clear_run fuel l a m mem m1 v :
  load l m = Some (Some a) → destroy fuel a m = Ok mem m1 →
  load l (record (EvDelete a) (set_heap (delete a (heap m1)) m1)) = Some v →
  clear fuel (cancellation_signal_slot l) m =
  Ok tt (write l None (record (EvDelete a) (set_heap (delete a (heap m1)) m1))).
Proof.
  intros Hl Hd Hl1.
  destruct (destroy_Ok _ _ _ _ _ Hd) as (obj & sz & _ & -> & Ha1 & _).
  unfold clear, cancellation_signal_slot. cbn [slot_handler_].
  unfold bind at 1. unfold deref_loc. rewrite Hl.
  unfold bind at 1. rewrite Hd. unfold bind, operator_delete. cbn [fst].
  rewrite Ha1. by rewrite (store_run _ _ _ _ Hl1).
Qed.

(** ** Installing and removing *)

(** X4.  A handler installed in an empty slot and then removed by [clear()]
    leaves the free store and every signal exactly as they were before the
    two calls: the block allocated for it is released, and nothing else was
    written.  [clear()] does return. *)
Theorem emplace_then_clear_restores fuel fuel' H l m a m1 :
  load l m = Some None →
  emplace fuel H (cancellation_signal_slot l) m = Ok a m1 →
  (child_of <$> construct H) = Some None →
  ∃ m2, clear (S fuel') (cancellation_signal_slot l) m1 = Ok tt m2 ∧
    signals m2 = signals m ∧ heap m2 = heap m ∧
    trace m2 = trace m ++ [EvNew a (sizeof_handler H); EvDestroy a; EvDelete a].
Proof.
  intros Hl He Hch.
  destruct (emplace_empty_eq _ _ _ _ _ _ Hl He) as (h & Hc & _ & Hp & ->).
  rewrite Hc in Hch. injection Hch as Hch.
  set (sz := sizeof_handler H) in *. set (obj := CancellationHandler h sz).
  set (m1 := installed l a sz obj m).
  pose proof (load_installed l a sz obj m Hl Hp) as Hl1. fold m1 in Hl1.
  pose proof (λ x, heap_installed l a sz obj m x Hl Hp) as Hh1. fold m1 in Hh1.
  assert (heap m1 !! a = Some (Block sz (Some obj))) as Ha1.
  { rewrite Hh1. by rewrite decide_True. }
  assert (owns m1 a []) as Ho.
  { simpl. assert (handler_at a m1 = Some h) as ->; [|simpl; by rewrite Hch].
    apply handler_at_Some. eauto. }
  destruct (destroy_owns [] a m1 (S fuel') Ho) as
    (md & sz' & h' & cap' & Ha1' & Hd & Hsd & _ & Htd & Hhd); [simpl; lia|].
  rewrite Ha1 in Ha1'. injection Ha1' as <- <- <-.
  assert (l ≠ LImpl a) as Hla.
  { intros ->. apply load_LImpl_is_Some in Hl as (? & ? & Hb). congruence. }
  set (m2 := record (EvDelete a) (set_heap (delete a (heap md)) md)).
  assert (load l m2 = Some (Some a)) as Hl2.
  { rewrite <- Hl1. unfold m2. rewrite load_record.
    apply load_ext; [intros; simpl; by rewrite Hsd|].
    intros b ->.
    change (heap (set_heap (delete a (heap md)) md)) with (delete a (heap md)).
    rewrite lookup_delete_ne by congruence. rewrite (Hhd b).
    destruct (decide (b ∈ [])) as [?%elem_of_nil|_]; [done|].
    destruct (decide (b = a)); [congruence|done]. }
  exists (write l None m2). split; [by eapply clear_run|]. split; [|split].
  - rewrite signals_write. simpl. rewrite Hsd. unfold m1, installed.
    rewrite signals_write. simpl. destruct l as [n|b]; [|done].
    rewrite insert_insert_eq. by apply insert_id.
  - apply map_eq. intros x. rewrite heap_write_lookup. simpl.
    rewrite lookup_delete. destruct (decide (a = x)) as [<-|Hax].
    + rewrite decide_False by done. by rewrite Hp.
    + rewrite (Hhd x), Hh1.
      destruct (decide (x ∈ [])) as [?%elem_of_nil|_]; [done|].
      destruct (decide (x = a)) as [->|_]; [done|].
      destruct (decide (l = LImpl x)) as [->|Hlx]; [|done].
      rewrite <- option_fmap_compose.
      destruct (heap m !! x) as [b|] eqn:Hx; [|done]. simpl. f_equal.
      unfold compose. rewrite set_signal__twice. by eapply set_signal__same.
  - rewrite trace_write. simpl. rewrite Htd. unfold m1, installed.
    rewrite trace_write. simpl. by rewrite <- !app_assoc.
Qed.

(** ** The size recorded in a handler object *)

Lemma sized_ext m m' :
  (∀ x sz obj, heap m' !! x = Some (Block sz (Some obj)) →
     ∃ obj', heap m !! x = Some (Block sz (Some obj')) ∧ size_ obj = size_ obj') →
  sized m → sized m'.
Proof.
  intros Hext Hs x sz obj Hx. destruct (Hext x sz obj Hx) as (obj' & Hx' & ->).
  by eapply Hs.
Qed.

Lemma sized_record e m : sized (record e m) ↔ sized m.
Proof. done. Qed.

Lemma sized_delete a m : sized m → sized (set_heap (delete a (heap m)) m).
Proof.
  apply sized_ext. intros x sz obj Hx. simpl in Hx.
  rewrite lookup_delete in Hx. case_decide; [done|]. eauto.
Qed.

Lemma sized_write l v m : sized m → sized (write l v m).
Proof.
  apply sized_ext. intros x sz obj Hx. rewrite heap_write_lookup in Hx.
  case_decide; [|eauto]. revert Hx.
  destruct (heap m !! x) as [[sz' [[[s c|id] cap]|]]|]; intros Hx;
    unfold set_signal_ in Hx; simplify_eq/=; eauto.
Qed.

Lemma sized_cancel_at a m : sized m → sized (cancel_at a m).
Proof.
  apply sized_ext. intros x sz obj Hx.
  change (heap (cancel_at a m)) with (alter set_cancelled_ a (heap m)) in Hx.
  rewrite lookup_alter in Hx. case_decide as E; [subst a|eauto]. revert Hx.
  destruct (heap m !! x) as [[sz' [[[s c|id] cap]|]]|]; intros Hx;
    unfold set_cancelled_ in Hx; simplify_eq/=; eauto.
Qed.

Lemma sized_end_lifetime a m u m' : end_lifetime a m = Ok u m' → sized m → sized m'.
Proof.
  intros (sz & obj & Ha & ->)%end_lifetime_Ok. apply sized_ext.
  intros x sz' obj' Hx. simpl in Hx. rewrite lookup_insert in Hx.
  case_decide; [done|]. eauto.
Qed.

Lemma sized_operator_delete p m u m' :
  operator_delete p m = Ok u m' → sized m → sized m'.
Proof.
  intros Hd%operator_delete_Ok Hs. destruct p as [a|]; [|by subst].
  destruct Hd as [_ ->]. by apply sized_record, sized_delete.
Qed.

(** [destroy()] keeps the recorded sizes right, and changes the size of no
    block. *)
Lemma destroy_sized fuel : ∀ a m mem m',
  destroy fuel a m = Ok mem m' →
  (sized m → sized m') ∧
  ∀ x b', heap m' !! x = Some b' →
    ∃ b, heap m !! x = Some b ∧ blk_size b' = blk_size b.
Proof.
  induction fuel as [|fuel IH]; intros a m mem m' H; [discriminate|].
  rewrite destroy_S in H. destruct (object_at a m) as [obj|]; [|discriminate].
  inv_bind H as [] m2 Hdtor. inv_bind H as [] m3 Hend. apply ret_Ok in H as [_ <-].
  assert ((sized m → sized m2) ∧
          ∀ x b', heap m2 !! x = Some b' →
            ∃ b, heap m !! x = Some b ∧ blk_size b' = blk_size b) as [Hs2 Hb2].
  { destruct (handler_ obj) as [[c|] fl|id].
    - apply signal_dtor_Ok in Hdtor as (mem' & m1 & Hd & Hdel).
      destruct (IH _ _ _ _ Hd) as [Hs1 Hb1]. split.
      + intros Hs. eapply sized_operator_delete; [exact Hdel|]. by apply Hs1.
      + intros x b' Hx. apply Hb1.
        apply operator_delete_Ok in Hdel. destruct (fst mem') as [p|]; [|by subst].
        destruct Hdel as [_ ->]. simpl in Hx. rewrite lookup_delete in Hx.
        by case_decide.
    - apply signal_dtor_Ok in Hdtor as ->. split; [done|]. eauto.
    - apply ret_Ok in Hdtor as [_ <-]. split; [done|]. eauto. }
  split.
  - intros Hs. eapply sized_end_lifetime; [exact Hend|]. by apply Hs2.
  - intros x b' Hx. apply end_lifetime_Ok in Hend as (sz & obj' & Ha & ->).
    simpl in Hx. rewrite lookup_insert in Hx. case_decide as Hax; [|by apply Hb2].
    subst x. injection Hx as <-. destruct (Hb2 a _ Ha) as (b & Hb & Hsz). eauto.
Qed.

Lemma emit_sized fuel : ∀ l m m', emit fuel l m = Ok tt m' → sized m → sized m'.
Proof.
  induction fuel as [|fuel IH]; intros l m m' He Hs; [discriminate|].
  rewrite emit_S in He. destruct (load l m) as [[b|]|]; try discriminate.
  - rewrite call_eq, handler_at_record in He.
    destruct (handler_at b m) as [[sb cb|id]|]; try discriminate.
    + eapply IH; [exact He|]. by apply sized_cancel_at.
    + by injection He as <-.
  - by injection He as <-.
Qed.

Lemma sized_heap_eq m m' : heap m' = heap m → sized m → sized m'.
Proof. unfold sized. by intros ->. Qed.

Lemma sized_store l v m u m' : store l v m = Ok u m' → sized m → sized m'.
Proof.
  unfold store. destruct (load l m); [|discriminate]. destruct u.
  intros [= <-]. apply sized_write.
Qed.

Lemma sized_operator_new size m p m' :
  operator_new size m = Ok p m' → sized m → sized m'.
Proof.
  intros (_ & Hp & ->)%operator_new_Ok. apply sized_ext.
  intros x sz obj Hx. simpl in Hx. rewrite lookup_insert in Hx.
  case_decide; [done|]. eauto.
Qed.

(** With the recorded sizes right, the pair [prepare_memory] returns is a
    block without an object together with the true size of that block. *)
Lemma prepare_memory_sized fuel l size m mem m' :
  sized m →
  prepare_memory fuel (Slot (Some l)) size m = Ok mem m' →
  sized m' ∧ ∀ p, fst mem = Some p → heap m' !! p = Some (Block (snd mem) None).
Proof.
  unfold prepare_memory. simpl. intros Hs H.
  inv_bind H as cur ? Hcur. apply deref_loc_Ok in Hcur as [Hcur ->].
  inv_bind H as mem0 m1 Hold.
  assert (sized m1 ∧
          ∀ p, fst mem0 = Some p → heap m1 !! p = Some (Block (snd mem0) None))
    as [Hs1 Hp1].
  { destruct cur as [a|].
    - inv_bind Hold as mem1 m2 Hd. inv_bind Hold as [] m3 Hst.
      apply ret_Ok in Hold as [<- <-].
      destruct (destroy_sized _ _ _ _ _ Hd) as [Hs2 Hb2].
      destruct (destroy_Ok _ _ _ _ _ Hd) as (obj & sz & Hobj & -> & Ha & _).
      split; [eapply sized_store; [exact Hst|by apply Hs2]|].
      simpl. intros p [= <-].
      destruct (Hb2 a _ Ha) as (b & Hb & Hsz). simpl in Hsz.
      apply object_at_Some in Hobj as (sz0 & Hobj).
      rewrite Hobj in Hb. injection Hb as <-. simpl in Hsz. subst sz0.
      rewrite (Hs _ _ _ Hobj).
      unfold store in Hst. destruct (load l m2); [|discriminate].
      injection Hst as <-. rewrite heap_write_lookup, Ha. by case_decide.
    - apply ret_Ok in Hold as [<- <-]. split; [done|]. by intros p [=]. }
  destruct (snd mem0 <? size)%N.
  - inv_bind H as [] m2 Hdel. inv_bind H as p m3 Hnew.
    apply ret_Ok in H as [<- <-].
    split.
    + eapply sized_operator_new; [exact Hnew|].
      eapply sized_operator_delete; [exact Hdel|done].
    + simpl. intros q [= <-].
      apply operator_new_Ok in Hnew as (_ & _ & ->). simpl.
      apply lookup_insert_eq.
  - by apply ret_Ok in H as [<- <-].
Qed.

Lemma emplace_sized fuel H l m :
  sized m →
  match emplace fuel H (cancellation_signal_slot l) m with
  | Ok a m' =>
      sized m' ∧
      ∃ h cap, construct H = Some h ∧
        heap m' !! a = Some (Block cap (Some (CancellationHandler h cap))) ∧
        (sizeof_handler H ≤ cap)%N
  | Throw e m' => sized m'
  | _ => True
  end.
Proof.
  intros Hs.
  destruct (emplace fuel H (cancellation_signal_slot l) m) as [a m'|e m'| | |] eqn:He;
    try done.
  - assert (sized m') as Hs'.
    { unfold emplace in He. inv_bind He as mem m1 Hprep.
      destruct (prepare_memory_sized _ _ _ _ _ _ Hs Hprep) as [Hs1 Hp1].
      destruct (construct H) as [h|]; [|inv_bind He as [] ? Hx; discriminate].
      inv_bind He as [] m2 Hpl.
      apply placement_new_Ok in Hpl as (p & sz & old & Hp & Hblk & ->).
      rewrite Hp in He. simpl in He. inv_bind He as [] m3 Hst.
      apply ret_Ok in He as [<- <-].
      eapply sized_store; [exact Hst|].
      rewrite (Hp1 p Hp) in Hblk. injection Hblk as <- <-.
      intros x sz' obj Hx. simpl in Hx. rewrite lookup_insert in Hx.
      case_decide; [by injection Hx as <- <-|]. by eapply Hs1. }
    split; [done|].
    apply emplace_Ok in He as (h & cap & sz & Hc & _ & Ha & Hfit & _).
    rewrite <- (Hs' _ _ _ Ha) in Ha. eauto.
  - unfold emplace in He.
    apply bind_Throw in He as [He|(mem & m1 & Hprep & He)].
    + unfold prepare_memory in He. simpl in He.
      apply bind_Throw in He as [He|(cur & ? & Hcur & He)];
        [by apply deref_loc_no_Throw in He|].
      apply deref_loc_Ok in Hcur as [Hcur ->].
      apply bind_Throw in He as [He|(mem0 & m1 & Hold & He)].
      { destruct cur as [a|]; [|discriminate].
        apply bind_Throw in He as [He|(? & ? & _ & He)];
          [by apply destroy_no_Throw in He|].
        apply bind_Throw in He as [He|(? & ? & _ & He)];
          [by apply store_no_Throw in He|discriminate]. }
      assert (sized m1) as Hs1.
      { destruct cur as [a|]; [|by apply ret_Ok in Hold as [_ <-]].
        inv_bind Hold as mem1 m2 Hd. inv_bind Hold as [] m3 Hst.
        apply ret_Ok in Hold as [_ <-].
        eapply sized_store; [exact Hst|]. by apply (destroy_sized _ _ _ _ _ Hd). }
      destruct (snd mem0 <? sizeof_handler H)%N; [|discriminate].
      apply bind_Throw in He as [He|([] & m2 & Hdel & He)];
        [by apply operator_delete_no_Throw in He|].
      apply bind_Throw in He as [He|(? & ? & _ & He)]; [|discriminate].
      apply operator_new_Throw in He as (_ & _ & Hh & _).
      eapply sized_heap_eq; [exact Hh|].
      eapply sized_operator_delete; [exact Hdel|done].
    + destruct (prepare_memory_sized _ _ _ _ _ _ Hs Hprep) as [Hs1 _].
      destruct (construct H) as [h|].
      { apply bind_Throw in He as [He|(? & ? & _ & He)];
          [by apply placement_new_no_Throw in He|].
        destruct (fst mem); [|discriminate].
        apply bind_Throw in He as [He|(? & ? & _ & He)];
          [by apply store_no_Throw in He|discriminate]. }
      apply bind_Throw in He as [He|([] & m2 & Hdel & He)];
        [by apply operator_delete_no_Throw in He|].
      injection He as <- <-. eapply sized_operator_delete; [exact Hdel|done].
Qed.

(** X2.  That every handler object records the true size of its block is an
    invariant of the code: it holds in the empty store and is kept by
    [emplace] (whether it returns or throws), [clear], [emit], the
    construction of a state and the constructor and destructor of a signal.
    Under it, the object [emplace] installs lies in a block at least as large
    as the object, whether the block is new or reused. *)
Theorem recorded_size_is_block_size fuel H sizeof_impl l n m :
  sized init ∧
  (sized m →
   match emplace fuel H (cancellation_signal_slot l) m with
   | Ok a m' =>
       sized m' ∧
       ∃ h cap, construct H = Some h ∧
         heap m' !! a = Some (Block cap (Some (CancellationHandler h cap))) ∧
         (sizeof_handler H ≤ cap)%N
   | Throw e m' => sized m'
   | _ => True
   end) ∧
  (sized m → ∀ m', clear fuel (cancellation_signal_slot l) m = Ok tt m' → sized m') ∧
  (sized m → ∀ m', emit fuel l m = Ok tt m' → sized m') ∧
  (sized m → ∀ st m',
     cancellation_state_ctor sizeof_impl fuel (cancellation_signal_slot l) m = Ok st m' →
     sized m') ∧
  (sized m → ∀ k m', cancellation_signal_ctor m = Ok k m' → sized m') ∧
  (sized m → ∀ m', cancellation_signal_dtor fuel n m = Ok tt m' → sized m').
Proof.
  split; [by intros x sz obj Hx|]. split; [apply emplace_sized|].
  split; [|split; [|split; [|split]]]; intros Hs.
  - intros m' Hc. unfold clear in Hc. simpl in Hc.
    inv_bind Hc as cur ? Hcur. apply deref_loc_Ok in Hcur as [Hcur ->].
    destruct cur as [a|]; [|by apply ret_Ok in Hc as [_ <-]].
    inv_bind Hc as mem m2 Hd. inv_bind Hc as [] m3 Hdel.
    eapply sized_store; [exact Hc|].
    eapply sized_operator_delete; [exact Hdel|].
    by apply (destroy_sized _ _ _ _ _ Hd).
  - intros m' He. by eapply emit_sized.
  - intros st m' Hc. unfold cancellation_state_ctor in Hc. simpl in Hc.
    inv_bind Hc as a m1 He. apply ret_Ok in Hc as [_ <-].
    pose proof (emplace_sized fuel (impl_type sizeof_impl) l m Hs) as Hes.
    rewrite He in Hes. by destruct Hes.
  - intros k m' [= <- <-]. done.
  - intros m' Hd. unfold cancellation_signal_dtor in Hd.
    inv_bind Hd as h ? Hh. apply deref_loc_Ok in Hh as [Hh ->].
    inv_bind Hd as [] m1 Hdt. injection Hd as <-.
    apply signal_dtor_Ok in Hdt. destruct h as [a|]; [|by subst].
    destruct Hdt as (mem & m2 & Hd & Hdel).
    change (sized m1). eapply sized_operator_delete; [exact Hdel|].
    by apply (destroy_sized _ _ _ _ _ Hd).
Qed.

(** ** Tearing down what a signal holds *)

(** [destroy()] on the head of an ownership chain followed by the release of
    the block it returns removes the chain from the free store and touches
    nothing else. *)
Lemma destroy_delete_owns fuel a rest m :
  owns m a rest → length rest < fuel →
  ∃ m1 cap, destroy fuel a m = Ok (Some a, cap) m1 ∧
    is_Some (heap m1 !! a) ∧
    signals m1 = signals m ∧ oracle m1 = oracle m ∧
    trace m1 ++ [EvDelete a] = trace m ++ destroy_events a rest ++ [EvDelete a] ∧
    ∀ x, delete a (heap m1) !! x =
      if decide (x ∈ a :: rest) then None else heap m !! x.
Proof.
  intros Ho Hlen.
  destruct (destroy_owns rest a m fuel Ho Hlen)
    as (m1 & sz & old & cap & Ha & Hd & Hs1 & Ho1 & Ht1 & Hh1).
  exists m1, cap. split; [done|].
  pose proof (owns_head_not_in _ _ _ Ho) as Hnotin.
  split; [|split; [done|split; [done|split]]].
  - rewrite (Hh1 a). destruct (decide (a ∈ rest)); [done|].
    destruct (decide (a = a)); [eauto|done].
  - rewrite Ht1. by rewrite <- app_assoc.
  - intros x. rewrite lookup_delete, (Hh1 x).
    destruct (decide (a = x)) as [<-|Hax].
    + by rewrite decide_True by apply list_elem_of_here.
    + destruct (decide (x ∈ rest)) as [Hin|Hnin].
      * by rewrite decide_True by (by apply list_elem_of_further).
      * rewrite (decide_False (P := x ∈ a :: rest)).
        -- by destruct (decide (x = a)).
        -- intros [->|?]%elem_of_cons; done.
Qed.

Lemma calls_destroy_events b rest : ∀ a, calls b (destroy_events a rest) = 0.
Proof.
  induction rest as [|c rest IH]; intros a; cbn [destroy_events].
  - by rewrite calls_cons, decide_False.
  - rewrite calls_cons, decide_False by done. rewrite calls_app, IH.
    by rewrite calls_cons, decide_False.
Qed.

Lemma emissions_destroy_events l rest : ∀ a, emissions l (destroy_events a rest) = 0.
Proof.
  unfold emissions. induction rest as [|c rest IH]; intros a; cbn [destroy_events].
  - by rewrite filter_cons_False.
  - rewrite filter_cons_False by done. rewrite filter_app, length_app, IH.
    by rewrite filter_cons_False.
Qed.

(** X1.  The destructor of a signal calls no handler and emits nothing.  On
    a signal without a handler it only ends the signal.  On a signal that
    holds a handler (whose ownership chain is well formed) it returns, having
    destroyed every object of the chain and released every block of it, with
    the rest of the free store and the other signals as they were.
    Afterwards a slot of that signal is invalid: every use of it is
    undefined. *)
Theorem signal_destructor_releases_without_calling fuel n m :
  (load (LSig n) m = Some None →
   cancellation_signal_dtor fuel n m = Ok tt (set_signals (delete n (signals m)) m)) ∧
  (∀ a rest,
     load (LSig n) m = Some (Some a) → owns m a rest → length rest < fuel →
     ∃ m' evs, cancellation_signal_dtor fuel n m = Ok tt m' ∧
       signals m' = delete n (signals m) ∧
       (∀ x, heap m' !! x = if decide (x ∈ a :: rest) then None else heap m !! x) ∧
       trace m' = trace m ++ evs ∧
       (∀ b, calls b evs = 0) ∧ (∀ l, emissions l evs = 0) ∧
       has_handler (cancellation_signal_slot (LSig n)) m' = None ∧
       (∀ f H, emplace f H (cancellation_signal_slot (LSig n)) m' = Undefined) ∧
       (∀ f, clear f (cancellation_signal_slot (LSig n)) m' = Undefined) ∧
       (∀ f, emit (S f) (LSig n) m' = Undefined)).
Proof.
  split.
  - intros Hl. unfold cancellation_signal_dtor, bind, deref_loc. by rewrite Hl.
  - intros a rest Hl Ho Hlen.
    destruct (destroy_delete_owns fuel a rest m Ho Hlen)
      as (m1 & cap & Hd & [b Ha1] & Hs1 & Ho1 & Ht1 & Hh1).
    set (m2 := record (EvDelete a) (set_heap (delete a (heap m1)) m1)).
    exists (set_signals (delete n (signals m2)) m2),
           (destroy_events a rest ++ [EvDelete a]).
    assert (load (LSig n) (set_signals (delete n (signals m2)) m2) = None) as Hgone.
    { simpl. apply lookup_delete_eq. }
    split.
    { unfold cancellation_signal_dtor. unfold bind at 1. unfold deref_loc. rewrite Hl.
      unfold bind at 1. unfold signal_dtor. unfold bind at 1. rewrite Hd.
      unfold operator_delete. cbn [fst]. by rewrite Ha1. }
    split; [simpl; by rewrite Hs1|]. split; [exact Hh1|].
    split; [exact Ht1|]. split.
    { intros c. rewrite calls_app, calls_destroy_events.
      by rewrite calls_cons, decide_False. }
    split.
    { intros l. unfold emissions. rewrite filter_app, length_app.
      fold (emissions l (destroy_events a rest)).
      rewrite emissions_destroy_events. by rewrite filter_cons_False. }
    split; [unfold has_handler, cancellation_signal_slot; cbn [slot_handler_];
            by rewrite Hgone|].
    split; [|split].
    + intros f H. unfold emplace, prepare_memory, cancellation_signal_slot.
      cbn [slot_handler_]. unfold bind, deref_loc. by rewrite Hgone.
    + intros f. unfold clear, cancellation_signal_slot. cbn [slot_handler_].
      unfold bind, deref_loc. by rewrite Hgone.
    + intros f. by rewrite emit_S, Hgone.
Qed.

(** ** Chains of states as ownership chains *)

Lemma heap_installed_write l p size obj m x :
  load l m = Some None → heap m !! p = None → x ≠ p →
  heap (installed l p size obj m) !! x = heap (write l (Some p) m) !! x.
Proof.
  intros Hl Hp Hne. rewrite heap_installed, heap_write_lookup by done.
  by rewrite decide_False.
Qed.

Lemma signals_installed l p size obj m :
  signals (installed l p size obj m) = signals (write l (Some p) m).
Proof. unfold installed. by rewrite !signals_write. Qed.

Lemma state_ctor_empty_eq sizeof_impl fuel l m st m' :
  load l m = Some None →
  cancellation_state_ctor sizeof_impl fuel (cancellation_signal_slot l) m = Ok st m' →
  ∃ a, st = State (Some a) ∧ a = fresh (dom (heap m)) ∧ heap m !! a = None ∧
    m' = installed l a sizeof_impl
           (CancellationHandler (Impl None false) sizeof_impl) m.
Proof.
  intros Hl Hc. unfold cancellation_state_ctor in Hc. simpl in Hc.
  inv_bind Hc as a m1 He. apply ret_Ok in Hc as [<- <-].
  destruct (emplace_empty_eq _ _ _ _ _ _ Hl He) as (h & [= <-] & Ha & Hp & ->).
  eauto.
Qed.

(** The states built in sequence from an empty slot are forwarding handlers
    in blocks that were not in use, each owned by the one before; the last
    one's signal is empty, and nothing else has changed but the slot. *)
Lemma build_chain_owns sizeof_impl fuel n : ∀ l m states m',
  load l m = Some None →
  build_chain sizeof_impl fuel (S n) (cancellation_signal_slot l) m = Ok states m' →
  ∃ a rest, states = (λ a, State (Some a)) <$> (a :: rest) ∧ length rest = n ∧
    load l m' = Some (Some a) ∧ owns m' a rest ∧
    (∀ x, x ∈ a :: rest → heap m !! x = None) ∧
    (∀ x, x ∈ a :: rest → ∃ s, handler_at x m' = Some (Impl s false)) ∧
    (∀ z, last (a :: rest) = Some z → load (LImpl z) m' = Some None) ∧
    signals m' = signals (write l (Some a) m) ∧
    (∀ x, x ∉ a :: rest → heap m' !! x = heap (write l (Some a) m) !! x).
Proof.
  induction n as [|n IH]; intros l m states m' Hl Hb;
    cbn [build_chain] in Hb;
    inv_bind Hb as st m1 Hc; inv_bind Hb as sts m2 Hrest;
    apply ret_Ok in Hb as [<- <-];
    destruct (state_ctor_empty_eq _ _ _ _ _ _ Hl Hc) as (a & -> & _ & Hp & Hm1);
    set (obj := CancellationHandler (Impl None false) sizeof_impl) in *;
    pose proof (load_installed l a sizeof_impl obj m Hl Hp) as Hl1;
    pose proof (λ x, heap_installed l a sizeof_impl obj m x Hl Hp) as Hh1;
    rewrite <- Hm1 in Hl1, Hh1;
    assert (heap m1 !! a = Some (Block sizeof_impl (Some obj))) as Ha1
      by (rewrite Hh1; by rewrite decide_True);
    assert (handler_at a m1 = Some (Impl None false)) as Hat1
      by (apply handler_at_Some; eauto).
  - apply ret_Ok in Hrest as [<- <-]. exists a, [].
    split; [done|]. split; [done|]. split; [done|].
    split; [simpl; by rewrite Hat1|].
    split; [by intros x ->%list_elem_of_singleton|].
    split; [intros x ->%list_elem_of_singleton; eauto|].
    split; [intros z [= <-]; apply load_LImpl; eauto|].
    rewrite Hm1. split; [apply signals_installed|].
    intros x Hx. apply heap_installed_write; [done..|].
    intros ->. apply Hx, list_elem_of_here.
  - change (state_slot (State (Some a))) with (cancellation_signal_slot (LImpl a)) in Hrest.
    apply IH in Hrest
      as (c & rest & -> & Hlen & Hlc & Hoc & Hfresh & Himpl & Hlast & Hsig & Hframe);
      [|apply load_LImpl; eauto].
    assert (a ∉ c :: rest) as Hnotin.
    { intros Hin. specialize (Hfresh a Hin). congruence. }
    assert (heap m2 !! a = set_signal_ (Some c) <$> heap m1 !! a) as Ha2.
    { rewrite Hframe by done. rewrite heap_write_lookup. by rewrite decide_True. }
    exists a, (c :: rest). split; [done|]. split; [simpl; by rewrite Hlen|].
    assert (l ≠ LImpl a) as Hla.
    { intros ->. apply load_LImpl_is_Some in Hl as (? & ? & Hb). congruence. }
    split.
    { rewrite <- Hl1. apply load_ext.
      - intros k ->. by rewrite Hsig, signals_write.
      - intros b ->. rewrite Hframe.
        + rewrite heap_write_lookup. rewrite decide_False; [done|congruence].
        + intros Hin. specialize (Hfresh b Hin).
          apply load_LImpl_is_Some in Hl1 as (? & ? & Hb). congruence. }
    split.
    { split; [|done]. apply load_LImpl in Hlc as (fl & ->). done. }
    split.
    { intros x [->|Hx]%elem_of_cons; [done|]. specialize (Hfresh x Hx).
      rewrite Hh1 in Hfresh. destruct (decide (x = a)); [done|].
      destruct (decide (l = LImpl x)); [|done].
      by destruct (heap m !! x). }
    split.
    { intros x [->|Hx]%elem_of_cons; [|by apply Himpl].
      exists (Some c). apply handler_at_Some. exists sizeof_impl, sizeof_impl.
      rewrite Ha2, Ha1. done. }
    split; [intros z Hz; by apply Hlast|].
    split.
    { rewrite Hsig, signals_write, Hm1. apply signals_installed. }
    intros x Hx. apply not_elem_of_cons in Hx as [Hxa Hx].
    rewrite Hframe by done. rewrite heap_write_lookup.
    rewrite decide_False by congruence. rewrite Hm1.
    by apply heap_installed_write.
Qed.

(** [clear()] on a slot that holds the head of an ownership chain removes
    the chain from the free store, empties the slot and touches nothing
    else. *)
Lemma clear_owns_heap fuel l a rest m :
  load l m = Some (Some a) → owns m a rest → length rest < fuel →
  ∃ m', clear fuel (cancellation_signal_slot l) m = Ok tt m' ∧
    signals m' = signals (write l None m) ∧
    ∀ x, heap m' !! x =
      if decide (x ∈ a :: rest) then None else heap (write l None m) !! x.
Proof.
  intros Hl Ho Hlen.
  destruct (destroy_delete_owns fuel a rest m Ho Hlen)
    as (m1 & cap & Hd & [b Ha1] & Hs1 & Ho1 & Ht1 & Hh1).
  pose proof (λ b, owner_outside m l a rest b Hl Ho) as Hout.
  set (m2 := record (EvDelete a) (set_heap (delete a (heap m1)) m1)).
  assert (load l m2 = Some (Some a)) as Hl2.
  { rewrite <- Hl. unfold m2. rewrite load_record.
    apply load_ext; [intros; simpl; by rewrite Hs1|].
    intros c Hc. change (delete a (heap m1) !! c = heap m !! c).
    rewrite Hh1. rewrite decide_False; [done|]. by apply Hout. }
  exists (write l None m2). split; [by eapply clear_run|]. split.
  - rewrite !signals_write. simpl. by rewrite Hs1.
  - intros x. rewrite !heap_write_lookup.
    change (heap m2) with (delete a (heap m1)). rewrite Hh1.
    destruct (decide (x ∈ a :: rest)); [by case_decide|done].
Qed.

(** X8.  Any number of states built in sequence from an empty slot are
    taken down by one [clear()] on that slot: it returns, and the free store
    and every signal are exactly as they were before the first state was
    built.  The states themselves are then invalid: reading [cancelled()] or
    using their slots is undefined. *)
Theorem clear_releases_every_state sizeof_impl fuel n root m states m1 f :
  load root m = Some None →
  build_chain sizeof_impl fuel (S n) (cancellation_signal_slot root) m = Ok states m1 →
  n < f →
  ∃ m2, clear f (cancellation_signal_slot root) m1 = Ok tt m2 ∧
    signals m2 = signals m ∧ heap m2 = heap m ∧
    Forall (λ st, cancelled st m2 = None ∧
                  has_handler (state_slot st) m2 = None) states.
Proof.
  intros Hl Hb Hf.
  destruct (build_chain_owns _ _ _ _ _ _ _ Hl Hb)
    as (a & rest & -> & Hlen & Hl1 & Ho & Hfresh & _ & _ & Hsig & Hframe).
  destruct (clear_owns_heap f root a rest m1 Hl1 Ho) as (m2 & Hc & Hs2 & Hh2); [lia|].
  assert (heap m2 = heap m) as Hheap.
  { apply map_eq. intros x. rewrite Hh2.
    destruct (decide (x ∈ a :: rest)) as [Hin|Hnin]; [by rewrite Hfresh|].
    rewrite heap_write_lookup, Hframe, heap_write_lookup by done.
    destruct (decide (root = LImpl x)) as [->|]; [|done].
    rewrite <- option_fmap_compose.
    destruct (heap m !! x) as [b|] eqn:Hx; [|done]. simpl. f_equal.
    unfold compose. rewrite set_signal__twice. by eapply set_signal__same. }
  exists m2. split; [done|]. split; [|split; [done|]].
  - rewrite Hs2, !signals_write, Hsig, signals_write.
    destruct root as [k|b]; [|done].
    rewrite insert_insert_eq. by apply insert_id.
  - apply Forall_fmap, Forall_forall. intros x Hx.
    assert (heap m2 !! x = None) as Hgone by (rewrite Hheap; by apply Hfresh).
    assert (handler_at x m2 = None) as Hat.
    { unfold handler_at, object_at. by rewrite Hgone. }
    unfold cancelled, has_handler, state_slot, cancellation_signal_slot. simpl.
    by rewrite Hat.
Qed.

(** ** Emission through states to the innermost handler *)

Lemma handler_at_installed l p size obj m x :
  load l m = Some None → heap m !! p = None →
  handler_at x (installed l p size obj m) =
  if decide (x = p) then Some (handler_ obj)
  else if decide (l = LImpl x)
       then (λ h, match h with Impl _ c => Impl (Some p) c | User id => User id end)
              <$> handler_at x m
       else handler_at x m.
Proof.
  intros Hl Hp. unfold handler_at, object_at. rewrite heap_installed by done.
  destruct (decide (x = p)); [done|]. destruct (decide (l = LImpl x)); [|done].
  by destruct (heap m !! x) as [[sz [[[s c|id] cap]|]]|].
Qed.

(** A handler that holds no handler of its own, installed in the empty
    signal at the end of an ownership chain, extends the chain. *)
Lemma owns_extend m z b size obj : ∀ rest a,
  owns m a rest → last (a :: rest) = Some z →
  load (LImpl z) m = Some None → heap m !! b = None →
  child_of (handler_ obj) = None →
  owns (installed (LImpl z) b size obj m) a (rest ++ [b]).
Proof.
  intros rest a Ho Hlast Hl Hb Hch. revert a Ho Hlast.
  pose proof (λ x, handler_at_installed (LImpl z) b size obj m x Hl Hb) as Hat.
  assert (∀ x, is_Some (handler_at x m) → x ≠ b) as Hlive.
  { intros x [h (? & ? & Hx)%handler_at_Some] ->. congruence. }
  induction rest as [|c rest IH]; intros a Ho Hlast.
  - injection Hlast as ->. apply load_LImpl in Hl as (fl & Hz). simpl.
    split; [|split].
    + rewrite Hat, Hz. rewrite decide_False by (apply Hlive; by rewrite Hz).
      by rewrite decide_True.
    + intros ->%list_elem_of_singleton. apply (Hlive b); [by rewrite Hz|done].
    + rewrite Hat. rewrite decide_True by done. simpl. by rewrite Hch.
  - destruct Ho as (Hc & Hnotin & Hoc). rewrite last_cons_cons in Hlast.
    assert (is_Some (handler_at a m)) as Hsome.
    { destruct (handler_at a m); [eauto|discriminate]. }
    split; [|split].
    + rewrite Hat. rewrite decide_False by (by apply Hlive).
      rewrite decide_False; [done|]. intros [= ->].
      apply Hnotin. by eapply last_Some_elem_of.
    + intros [->|[Hin| ->%list_elem_of_singleton]%elem_of_app]%elem_of_cons.
      * apply Hnotin, list_elem_of_here.
      * by apply Hnotin, list_elem_of_further.
      * by apply (Hlive b).
    + by apply IH.
Qed.

(** X7.  With any number of states built in sequence from an empty slot
    and a handler installed in the slot of the last of them, no state is
    cancelled yet; one [emit()] on the root signal returns, makes
    [cancelled()] true on every state, and calls the installed handler
    exactly once, leaving it installed. *)
Theorem emit_reaches_innermost_handler sizeof_impl fuel fuel' n H root m
    states m1 st b m2 :
  load root m = Some None →
  build_chain sizeof_impl fuel (S n) (cancellation_signal_slot root) m = Ok states m1 →
  last states = Some st →
  emplace fuel' H (state_slot st) m1 = Ok b m2 →
  (child_of <$> construct H) = Some None →
  Forall (λ s, cancelled s m2 = Some false) states ∧
  ∀ f, S (S n) < f →
    ∃ m3 evs, emit f root m2 = Ok tt m3 ∧
      trace m3 = trace m2 ++ evs ∧
      calls b evs = 1 ∧
      has_handler (state_slot st) m3 = Some true ∧
      Forall (λ s, cancelled s m3 = Some true) states.
Proof.
  intros Hl Hb Hlast He Hch.
  destruct (build_chain_owns _ _ _ _ _ _ _ Hl Hb)
    as (a & rest & -> & Hlen & Hl1 & Ho & Hfresh & Himpl & Hend & Hsig & Hframe).
  rewrite fmap_last in Hlast.
  destruct (last (a :: rest)) as [z|] eqn:Hz; [|discriminate].
  injection Hlast as <-.
  change (state_slot (State (Some z))) with (cancellation_signal_slot (LImpl z)) in *.
  specialize (Hend z eq_refl).
  destruct (emplace_empty_eq _ _ _ _ _ _ Hend He) as (h & Hc & _ & Hpb & ->).
  rewrite Hc in Hch. injection Hch as Hch.
  set (obj := CancellationHandler h (sizeof_handler H)) in *.
  set (m2 := installed (LImpl z) b (sizeof_handler H) obj m1).
  pose proof (λ x, handler_at_installed (LImpl z) b (sizeof_handler H) obj m1 x Hend Hpb)
    as Hat. fold m2 in Hat.
  assert (owns m2 a (rest ++ [b])) as Ho2 by (by apply owns_extend).
  assert (∀ x, x ∈ a :: rest → ∃ s, handler_at x m2 = Some (Impl s false)) as Himpl2.
  { intros x Hx. destruct (Himpl x Hx) as (s & Hs). rewrite Hat, Hs.
    destruct (decide (x = b)) as [->|]; [|case_decide; simpl; eauto].
    apply handler_at_Some in Hs as (? & ? & Hs). congruence. }
  assert (load root m2 = Some (Some a)) as Hl2.
  { rewrite <- Hl1. apply load_ext.
    - intros k ->. unfold m2. by rewrite signals_installed, signals_write.
    - intros r ->. unfold m2. rewrite heap_installed by done.
      destruct (decide (r = b)) as [->|].
      { apply load_LImpl_is_Some in Hl1 as (? & ? & Hr). congruence. }
      rewrite decide_False; [done|]. intros [= ->].
      apply load_LImpl_is_Some in Hl as (? & ? & Hr).
      rewrite Hfresh in Hr; [done|]. by eapply last_Some_elem_of. }
  split.
  { apply Forall_fmap, Forall_forall. intros x Hx.
    destruct (Himpl2 x Hx) as (s & Hs). unfold cancelled. simpl. by rewrite Hs. }
  intros f Hf.
  destruct (emit_owns (rest ++ [b]) a root m2 f Hl2 Ho2)
    as (m3 & evs & Hemit & Ht & Hcalls & _ & _ & Hh3).
  { rewrite length_app. simpl. lia. }
  assert (∀ x, x ∈ a :: rest ++ [b] →
            handler_at x m3 =
            (λ h, match h with Impl s _ => Impl s true | User id => User id end)
              <$> handler_at x m2) as Hat3.
  { intros x Hx. unfold handler_at, object_at. rewrite (Hh3 x).
    rewrite decide_True by done.
    by destruct (heap m2 !! x) as [[sz [[[s c|id] cap]|]]|]. }
  exists m3, evs. split; [done|]. split; [done|]. split.
  { rewrite Hcalls. rewrite decide_True; [done|].
    apply list_elem_of_further, elem_of_app. right. apply list_elem_of_here. }
  split.
  { unfold has_handler, cancellation_signal_slot. cbn [slot_handler_].
    assert (z ∈ a :: rest ++ [b]) as Hzin.
    { rewrite app_comm_cons. apply elem_of_app. left. by eapply last_Some_elem_of. }
    simpl. rewrite (Hat3 z Hzin), Hat. apply load_LImpl in Hend as (fl & ->).
    destruct (decide (z = b)) as [->|]; [|by rewrite decide_True].
    destruct (Himpl b) as (s & Hs); [by eapply last_Some_elem_of|].
    apply handler_at_Some in Hs as (? & ? & Hs). congruence. }
  apply Forall_fmap, Forall_forall. intros x Hx.
  destruct (Himpl2 x Hx) as (s & Hs). unfold cancelled. simpl.
  rewrite Hat3, Hs; [done|].
  rewrite app_comm_cons. apply elem_of_app. by left.
Qed.

(** ** Reuse of the block *)

(** [emplace] on a slot whose handler lies in a block large enough for the
    new one. *)
Lemma emplace_reuse fuel H h l a rest sz old cap m :
  load l m = Some (Some a) → owns m a rest → length rest < fuel →
  heap m !! a = Some (Block sz (Some (CancellationHandler old cap))) →
  construct H = Some h → (sizeof_handler H ≤ cap)%N →
  ∃ m', emplace fuel H (cancellation_signal_slot l) m = Ok a m' ∧
    load l m' = Some (Some a) ∧
    heap m' !! a = Some (Block sz (Some (CancellationHandler h cap))) ∧
    (∀ x, x ∈ rest → heap m' !! x = None) ∧
    trace m' = trace m ++ destroy_events a rest ∧ oracle m' = oracle m.
Proof.
  intros Hl Ho Hlen Ha Hc Hfit.
  destruct (vacate_run fuel l a rest m Hl Ho Hlen)
    as (m2 & sz' & old' & cap' & Ha' & Hvac & Hl2 & Ha2 & Hrest2 & Ht2 & Ho2).
  rewrite Ha in Ha'. injection Ha' as <- <- <-.
  destruct (install_run l a sz (CancellationHandler h cap) m2 Hl2 Ha2)
    as (m' & Hrun & Hl' & Ha' & Ht' & Ho' & Hnone).
  exists m'. split.
  { unfold emplace, prepare_memory, cancellation_signal_slot. cbn [slot_handler_].
    rewrite Hc. unfold bind at 1 2. unfold deref_loc at 1. rewrite Hl.
    unfold bind at 1. rewrite Hvac. cbn [fst snd].
    apply N.ltb_ge in Hfit. rewrite Hfit. unfold ret at 1. cbn [fst snd].
    exact Hrun. }
  split; [done|]. split; [done|]. split; [|split; congruence].
  intros x Hx. by apply Hnone, Hrest2.
Qed.

Lemma allocations_app t1 t2 :
  allocations (t1 ++ t2) = allocations t1 + allocations t2.
Proof. unfold allocations. by rewrite filter_app, length_app. Qed.

Lemma allocations_destroy_events rest : ∀ a, allocations (destroy_events a rest) = 0.
Proof.
  unfold allocations.
  induction rest as [|c rest IH]; intros a; cbn [destroy_events].
  - by rewrite filter_cons_False.
  - rewrite filter_cons_False by done. rewrite filter_app, length_app, IH.
    by rewrite filter_cons_False.
Qed.

(** X3.  On a slot that holds a handler, installing one after the other any
    number of handlers, each no larger than the size recorded for the block
    of the first and none holding a handler of its own, returns, calls
    [::operator new] not once, and puts every one of them at the same
    address; the recorded size stays what it was, and the last one is the
    one installed. *)
Theorem fitting_replacements_allocate_nothing fuel Hs l a rest sz old cap m :
  load l m = Some (Some a) → owns m a rest → length rest < fuel →
  heap m !! a = Some (Block sz (Some (CancellationHandler old cap))) →
  Forall (λ H, (sizeof_handler H ≤ cap)%N ∧
               (child_of <$> construct H) = Some None) Hs →
  ∃ m' evs h',
    emplace_all fuel Hs (cancellation_signal_slot l) m
      = Ok (replicate (length Hs) a) m' ∧
    trace m' = trace m ++ evs ∧ allocations evs = 0 ∧
    oracle m' = oracle m ∧
    load l m' = Some (Some a) ∧
    heap m' !! a = Some (Block sz (Some (CancellationHandler h' cap))) ∧
    match last Hs with
    | Some H => construct H = Some h'
    | None => h' = old
    end.
Proof.
  intros Hl Ho Hlen Ha Hall. revert m rest old Hl Ho Hlen Ha.
  induction Hall as [|H Hs [Hfit Hch] Hall IH]; intros m rest old Hl Ho Hlen Ha.
  - exists m, [], old. simpl. unfold ret. by rewrite app_nil_r.
  - destruct (construct H) as [h|] eqn:Hc; [|discriminate]. injection Hch as Hch.
    destruct (emplace_reuse fuel H h l a rest sz old cap m Hl Ho Hlen Ha Hc Hfit)
      as (m1 & He & Hl1 & Ha1 & _ & Ht1 & Ho1).
    destruct (IH m1 [] h) as (m' & evs & h' & Hrun & Ht & Hal & Hor & Hl' & Ha' & Hlast).
    { done. }
    { simpl. assert (handler_at a m1 = Some h) as ->; [|simpl; by rewrite Hch].
      apply handler_at_Some. eauto. }
    { simpl. lia. }
    { done. }
    exists m', (destroy_events a rest ++ evs), h'. split.
    { cbn [emplace_all length replicate]. unfold bind at 1. rewrite He.
      unfold bind. by rewrite Hrun. }
    split; [by rewrite Ht, Ht1, app_assoc|]. split.
    { by rewrite allocations_app, allocations_destroy_events, Hal. }
    split; [congruence|]. split; [done|]. split; [done|].
    destruct Hs as [|H' Hs]; [simpl in *; congruence|].
    rewrite last_cons_cons.
    destruct (last (H' :: Hs)) eqn:E; [done|]. by apply last_None in E.
Qed.

(** X6.  A state built from an empty slot and cancelled by an emission is
    not the end of its [impl]'s block: building another state from the same
    slot returns, allocates nothing, and yields a state with the very same
    [impl_] pointer, so that the first state and the second are one; its
    [cancelled()] is false again and its slot is empty. *)
Theorem rebuilt_state_shares_impl sizeof_impl fuel l m st m1 f m2 :
  load l m = Some None →
  cancellation_state_ctor sizeof_impl fuel (cancellation_signal_slot l) m = Ok st m1 →
  emit f l m1 = Ok tt m2 →
  cancelled st m2 = Some true ∧
  ∀ f', ∃ a m3,
    impl_ st = Some a ∧
    cancellation_state_ctor sizeof_impl (S f') (cancellation_signal_slot l) m2 = Ok st m3 ∧
    trace m3 = trace m2 ++ [EvDestroy a] ∧
    cancelled st m3 = Some false ∧
    has_handler (state_slot st) m3 = Some false.
Proof.
  intros Hl Hc He.
  destruct (state_ctor_empty_eq _ _ _ _ _ _ Hl Hc) as (a & -> & _ & Hp & ->).
  set (obj := CancellationHandler (Impl None false) sizeof_impl) in *.
  set (m1 := installed l a sizeof_impl obj m) in *.
  pose proof (load_installed l a sizeof_impl obj m Hl Hp) as Hl1. fold m1 in Hl1.
  assert (heap m1 !! a = Some (Block sizeof_impl (Some obj))) as Ha1.
  { unfold m1. rewrite heap_installed by done. by rewrite decide_True. }
  assert (handler_at a m1 = Some (Impl None false)) as Hat1.
  { apply handler_at_Some. eauto. }
  assert (∃ f0, f = S (S f0)) as (f0 & ->).
  { destruct f as [|[|f0]]; [discriminate| |eauto].
    rewrite emit_S, Hl1, call_eq, handler_at_record, Hat1 in He. discriminate. }
  destruct (emit_forward_once f0 l a false m1 Hl1 Hat1) as (He' & Hl2 & Hat2 & _).
  rewrite He' in He. injection He as He. rewrite He in Hl2, Hat2. clear He'.
  assert (heap m2 !! a =
          Some (Block sizeof_impl (Some (CancellationHandler (Impl None true) sizeof_impl))))
    as Ha2.
  { rewrite <- He. simpl. rewrite lookup_alter_eq, Ha1. done. }
  split; [unfold cancelled; simpl; by rewrite Hat2|].
  intros f'.
  destruct (emplace_reuse (S f') (impl_type sizeof_impl) (Impl None false) l a []
              sizeof_impl (Impl None true) sizeof_impl m2)
    as (m3 & He3 & Hl3 & Ha3 & _ & Ht3 & _); try done.
  { simpl. by rewrite Hat2. }
  { simpl. lia. }
  exists a, m3. split; [done|]. split.
  { unfold cancellation_state_ctor. simpl. unfold bind. by rewrite He3. }
  split; [exact Ht3|].
  assert (handler_at a m3 = Some (Impl None false)) as Hat3.
  { apply handler_at_Some. eauto. }
  split; [unfold cancelled; simpl; by rewrite Hat3|].
  unfold has_handler, state_slot, cancellation_signal_slot. simpl. by rewrite Hat3.
Qed.

(** ** Which way cancellation flows *)

(** X9.  An emission on the signal of a state's own slot goes down only:
    it returns, calls the handler installed in that slot once, and neither
    calls the state's forwarding handler nor changes what [cancelled()]
    returns for the state. *)
Theorem emit_on_state_slot_spares_the_state fuel st a c rest m :
  impl_ st = Some a → owns m a (c :: rest) → S (length rest) < fuel →
  ∃ m' evs, emit fuel (LImpl a) m = Ok tt m' ∧
    slot_handler_ (state_slot st) = Some (LImpl a) ∧
    trace m' = trace m ++ evs ∧
    calls c evs = 1 ∧ calls a evs = 0 ∧
    cancelled st m' = cancelled st m.
Proof.
  intros Hst (Hch & Hnotin & Hoc) Hlen.
  assert (load (LImpl a) m = Some (Some c)) as Hl.
  { simpl. by destruct (handler_at a m) as [[s fl|id]|]; simplify_eq/=. }
  destruct (emit_owns rest c (LImpl a) m fuel Hl Hoc Hlen)
    as (m' & evs & He & Ht & Hcalls & _ & _ & Hh).
  exists m', evs. split; [done|].
  split; [unfold state_slot; by rewrite Hst|]. split; [done|].
  split; [rewrite Hcalls; by rewrite decide_True by apply list_elem_of_here|].
  split; [rewrite Hcalls; by rewrite decide_False|].
  unfold cancelled. rewrite Hst. unfold handler_at, object_at.
  rewrite (Hh a). by rewrite decide_False.
Qed.

(** X10.  No emission, on whatever signal, resets a latch: a state whose
    [cancelled()] is true has it true after every [emit()] that returns. *)
Theorem cancelled_survives_every_emission fuel l st m m' :
  cancelled st m = Some true → emit fuel l m = Ok tt m' →
  cancelled st m' = Some true.
Proof.
  unfold cancelled. destruct (impl_ st) as [a|]; [|discriminate].
  destruct (handler_at a m) as [[s [] |id]|] eqn:Hat; try discriminate.
  intros _ He. by rewrite (emit_keeps_cancelled _ _ _ _ _ _ He Hat).
Qed.

(** ** Who calls and who allocates *)

Lemma calls_skip b e t : (∀ a, e ≠ EvCall a) → calls b (e :: t) = calls b t.
Proof. intros Hne. by rewrite calls_cons, decide_False. Qed.

Lemma emissions_skip l e t :
  (∀ l', e ≠ EvEmit l') → emissions l (e :: t) = emissions l t.
Proof. intros Hne. unfold emissions. by rewrite filter_cons_False. Qed.

Lemma emissions_app l t1 t2 :
  emissions l (t1 ++ t2) = emissions l t1 + emissions l t2.
Proof. unfold emissions. by rewrite filter_app, length_app. Qed.

(** [destroy()] extends the trace by events that are neither calls nor
    emissions. *)
Lemma destroy_silent fuel : ∀ a m mem m',
  destroy fuel a m = Ok mem m' →
  ∃ evs, trace m' = trace m ++ evs ∧
    (∀ b, calls b evs = 0) ∧ (∀ l, emissions l evs = 0).
Proof.
  induction fuel as [|fuel IH]; intros a m mem m' H; [discriminate|].
  rewrite destroy_S in H. destruct (object_at a m) as [obj|]; [|discriminate].
  inv_bind H as [] m2 Hdtor. inv_bind H as [] m3 Hend. apply ret_Ok in H as [_ <-].
  apply end_lifetime_Ok in Hend as (sz & obj' & _ & ->). simpl.
  destruct (handler_ obj) as [[c|] fl|id].
  - apply signal_dtor_Ok in Hdtor as (mem' & m1 & Hd & Hdel).
    destruct (IH _ _ _ _ Hd) as (evs & Ht & Hc & He).
    destruct (destroy_Ok _ _ _ _ _ Hd) as (? & ? & _ & -> & _).
    apply operator_delete_Ok in Hdel as [_ ->]. simpl in Ht |- *.
    exists ([EvDestroy a] ++ evs ++ [EvDelete c]).
    split; [rewrite Ht; by rewrite <- !app_assoc|]. split.
    + intros b. by rewrite !calls_app, Hc, !calls_skip.
    + intros l. by rewrite !emissions_app, He, !emissions_skip.
  - apply signal_dtor_Ok in Hdtor as ->. exists [EvDestroy a].
    split; [done|]. split; intros; by rewrite ?calls_skip, ?emissions_skip.
  - apply ret_Ok in Hdtor as [_ <-]. exists [EvDestroy a].
    split; [done|]. split; intros; by rewrite ?calls_skip, ?emissions_skip.
Qed.

(** X11.  Handlers are called by [emit()] only.  Whatever [clear()] and
    [emplace] do on whatever store, when they return (and, for [emplace],
    also when it throws) they have called no handler and emitted no signal:
    a handler that is removed or replaced is destroyed without being
    called. *)
Theorem clear_and_emplace_call_nothing fuel H l m :
  (∀ m', clear fuel (cancellation_signal_slot l) m = Ok tt m' →
     ∃ evs, trace m' = trace m ++ evs ∧
       (∀ b, calls b evs = 0) ∧ (∀ l', emissions l' evs = 0)) ∧
  (∀ a m', emplace fuel H (cancellation_signal_slot l) m = Ok a m' →
     ∃ evs, trace m' = trace m ++ evs ∧
       (∀ b, calls b evs = 0) ∧ (∀ l', emissions l' evs = 0)) ∧
  (∀ e m', emplace fuel H (cancellation_signal_slot l) m = Throw e m' →
     ∃ evs, trace m' = trace m ++ evs ∧
       (∀ b, calls b evs = 0) ∧ (∀ l', emissions l' evs = 0)).
Proof.
  assert (Hnil : ∀ t : list event, ∃ evs, t = t ++ evs ∧
            (∀ b, calls b evs = 0) ∧ (∀ l', emissions l' evs = 0)).
  { intros t. exists []. by rewrite app_nil_r. }
  assert (Hsnoc : ∀ (t t' evs : list event) e,
            t' = t ++ evs → (∀ b, calls b evs = 0) → (∀ l', emissions l' evs = 0) →
            (∀ b, e ≠ EvCall b) → (∀ l', e ≠ EvEmit l') →
            ∃ evs', t' ++ [e] = t ++ evs' ∧
              (∀ b, calls b evs' = 0) ∧ (∀ l', emissions l' evs' = 0)).
  { intros t t' evs e -> Hc He Hne1 Hne2. exists (evs ++ [e]).
    split; [by rewrite app_assoc|]. split.
    - intros b. by rewrite calls_app, Hc, calls_skip.
    - intros l'. by rewrite emissions_app, He, emissions_skip. }
  assert (Hdel : ∀ p m1 u m2 evs,
            operator_delete p m1 = Ok u m2 → trace m1 = trace m ++ evs →
            (∀ b, calls b evs = 0) → (∀ l', emissions l' evs = 0) →
            ∃ evs', trace m2 = trace m ++ evs' ∧
              (∀ b, calls b evs' = 0) ∧ (∀ l', emissions l' evs' = 0)).
  { intros p m1 u m2 evs Hd Ht Hc He. apply operator_delete_Ok in Hd.
    destruct p as [a|]; [|subst; eauto]. destruct Hd as [_ ->]. simpl.
    by eapply Hsnoc. }
  assert (Hvac : ∀ cur mem m1,
            match cur with
            | Some a => bind (destroy fuel a) (λ mem, bind (store l None) (λ _, ret mem))
            | None => ret (None, 0%N)
            end m = Ok mem m1 →
            ∃ evs, trace m1 = trace m ++ evs ∧
              (∀ b, calls b evs = 0) ∧ (∀ l', emissions l' evs = 0)).
  { intros [a|] mem m1 Hv; [|apply ret_Ok in Hv as [_ <-]; apply Hnil].
    inv_bind Hv as mem1 m2 Hd. inv_bind Hv as [] m3 Hst.
    apply ret_Ok in Hv as [_ <-].
    unfold store in Hst. destruct (load l m2); [|discriminate].
    injection Hst as <-. rewrite trace_write. by eapply destroy_silent. }
  assert (Hprep : ∀ mem m1,
            prepare_memory fuel (Slot (Some l)) (sizeof_handler H) m = Ok mem m1 →
            ∃ evs, trace m1 = trace m ++ evs ∧
              (∀ b, calls b evs = 0) ∧ (∀ l', emissions l' evs = 0)).
  { intros mem m1 Hp. unfold prepare_memory in Hp. simpl in Hp.
    inv_bind Hp as cur ? Hcur. apply deref_loc_Ok in Hcur as [Hcur ->].
    inv_bind Hp as mem0 m2 Hold. destruct (Hvac _ _ _ Hold) as (evs & Ht & Hc & He).
    destruct (snd mem0 <? sizeof_handler H)%N; [|apply ret_Ok in Hp as [_ <-]; eauto].
    inv_bind Hp as [] m3 Hd. inv_bind Hp as p m4 Hnew. apply ret_Ok in Hp as [_ <-].
    destruct (Hdel _ _ _ _ _ Hd Ht Hc He) as (evs' & Ht' & Hc' & He').
    apply operator_new_Ok in Hnew as (_ & _ & ->). simpl. by eapply Hsnoc. }
  split; [|split].
  - intros m' Hc. unfold clear in Hc. simpl in Hc.
    inv_bind Hc as cur ? Hcur. apply deref_loc_Ok in Hcur as [Hcur ->].
    destruct cur as [a|]; [|apply ret_Ok in Hc as [_ <-]; apply Hnil].
    inv_bind Hc as mem m2 Hd. inv_bind Hc as [] m3 Hdl.
    unfold store in Hc. destruct (load l m3); [|discriminate].
    injection Hc as <-. rewrite trace_write.
    destruct (destroy_silent _ _ _ _ _ Hd) as (evs & Ht & Hcl & Hem).
    by eapply Hdel.
  - intros a m' He. unfold emplace in He. inv_bind He as mem m1 Hp.
    destruct (construct H) as [h|]; [|inv_bind He as [] ? Hx; discriminate].
    inv_bind He as [] m2 Hpl.
    apply placement_new_Ok in Hpl as (p & sz & old & Hpp & _ & ->).
    rewrite Hpp in He. simpl in He. inv_bind He as [] m3 Hst.
    apply ret_Ok in He as [_ <-].
    unfold store in Hst. destruct (load l _); [|discriminate].
    injection Hst as <-. rewrite trace_write. simpl. by apply Hprep in Hp.
  - intros e m' He. unfold emplace in He.
    apply bind_Throw in He as [He|(mem & m1 & Hp & He)].
    + unfold prepare_memory in He. simpl in He.
      apply bind_Throw in He as [He|(cur & ? & Hcur & He)];
        [by apply deref_loc_no_Throw in He|].
      apply deref_loc_Ok in Hcur as [Hcur ->].
      apply bind_Throw in He as [He|(mem0 & m1 & Hold & He)].
      { destruct cur as [a|]; [|discriminate].
        apply bind_Throw in He as [He|(? & ? & _ & He)];
          [by apply destroy_no_Throw in He|].
        apply bind_Throw in He as [He|(? & ? & _ & He)];
          [by apply store_no_Throw in He|discriminate]. }
      destruct (Hvac _ _ _ Hold) as (evs & Ht & Hc & Hem).
      destruct (snd mem0 <? sizeof_handler H)%N; [|discriminate].
      apply bind_Throw in He as [He|([] & m2 & Hdl & He)];
        [by apply operator_delete_no_Throw in He|].
      apply bind_Throw in He as [He|(? & ? & _ & He)]; [|discriminate].
      apply operator_new_Throw in He as (_ & _ & _ & ->). by eapply Hdel.
    + destruct (Hprep _ _ Hp) as (evs & Ht & Hc & Hem).
      destruct (construct H) as [h|].
      { apply bind_Throw in He as [He|(? & ? & _ & He)];
          [by apply placement_new_no_Throw in He|].
        destruct (fst mem); [|discriminate].
        apply bind_Throw in He as [He|(? & ? & _ & He)];
          [by apply store_no_Throw in He|discriminate]. }
      apply bind_Throw in He as [He|([] & m2 & Hdl & He)];
        [by apply operator_delete_no_Throw in He|].
      injection He as <- <-. by eapply Hdel.
Qed.

(** X12.  [emit()] only calls: whatever the store, when it returns it has
    allocated nothing, released nothing and destroyed no object; every
    signal holds what it held, and the trace has grown by emissions and
    calls only. *)
Theorem emit_only_calls fuel : ∀ l m m',
  emit fuel l m = Ok tt m' →
  signals m' = signals m ∧ oracle m' = oracle m ∧
  dom (heap m') = dom (heap m) ∧
  (∀ l', load l' m' = load l' m) ∧
  ∃ evs, trace m' = trace m ++ evs ∧
    Forall (λ e, (∃ l', e = EvEmit l') ∨ (∃ a, e = EvCall a)) evs.
Proof.
  induction fuel as [|fuel IH]; intros l m m' He; [discriminate|].
  rewrite emit_S in He. destruct (load l m) as [[b|]|]; try discriminate.
  - rewrite call_eq, handler_at_record in He.
    destruct (handler_at b m) as [[sb cb|id]|]; try discriminate.
    + apply IH in He as (Hs & Ho & Hd & Hl & evs & Ht & Hev).
      split; [done|]. split; [done|]. split.
      { rewrite Hd. simpl. apply dom_alter_L. }
      split.
      { intros l'. by rewrite Hl, load_cancel_at, !load_record. }
      exists ([EvEmit l; EvCall b] ++ evs). split.
      { rewrite Ht. simpl. by rewrite <- !app_assoc. }
      apply Forall_app. split; [|done].
      repeat (apply Forall_cons; split; [eauto|]). apply Forall_nil_2.
    + injection He as <-. repeat split; try done.
      exists [EvEmit l; EvCall b]. split; [simpl; by rewrite <- app_assoc|].
      repeat (apply Forall_cons; split; [eauto|]). apply Forall_nil_2.
  - injection He as <-. repeat split; try done.
    exists [EvEmit l]. split; [done|].
    repeat (apply Forall_cons; split; [eauto|]). apply Forall_nil_2.
Qed.

(** ** Comparison of slots *)

(** X5.  [operator!=] is the negation of [operator==]; [operator==] is
    reflexive, symmetric and transitive; and slots that compare equal cannot
    be told apart: they are connected or not together, and [has_handler],
    [emplace] and [clear] through the one do what they do through the
    other. *)
Theorem slot_comparison_is_an_equivalence (s1 s2 s3 : cancellation_slot) :
  slot_ne s1 s2 = negb (slot_eq s1 s2) ∧
  slot_eq s1 s1 = true ∧
  slot_eq s1 s2 = slot_eq s2 s1 ∧
  (slot_eq s1 s2 = true → slot_eq s2 s3 = true → slot_eq s1 s3 = true) ∧
  (slot_eq s1 s2 = true →
   is_connected s1 = is_connected s2 ∧
   ∀ fuel H m,
     has_handler s1 m = has_handler s2 m ∧
     emplace fuel H s1 m = emplace fuel H s2 m ∧
     clear fuel s1 m = clear fuel s2 m).
Proof.
  destruct s1 as [p1], s2 as [p2], s3 as [p3]. unfold slot_eq, slot_ne. simpl.
  split; [by rewrite bool_decide_not|].
  split; [by apply bool_decide_eq_true|].
  split; [apply bool_decide_ext; split; congruence|].
  split.
  - intros ->%bool_decide_eq_true ->%bool_decide_eq_true.
    by apply bool_decide_eq_true.
  - by intros ->%bool_decide_eq_true.
Qed.

(** ** The further properties at concrete stores *)

Lemma owns_nested : owns nested 1 [2%positive].
Proof.
  split; [reflexivity|]. split; [|reflexivity].
  apply (bool_decide_unpack _). reflexivity.
Defined.

Lemma signal_destructor_releases_without_calling_witness :
  load (LSig 0) nested = Some (Some 1%positive) ∧ owns nested 1 [2%positive] ∧
  ∃ m' evs, cancellation_signal_dtor 2 0 nested = Ok tt m' ∧
    signals m' = delete 0 (signals nested) ∧
    (∀ x, heap m' !! x =
       if decide (x ∈ [1%positive; 2%positive]) then None else heap nested !! x) ∧
    trace m' = trace nested ++ evs ∧
    (∀ b, calls b evs = 0) ∧ (∀ l, emissions l evs = 0) ∧
    has_handler (cancellation_signal_slot (LSig 0)) m' = None ∧
    (∀ f H, emplace f H (cancellation_signal_slot (LSig 0)) m' = Undefined) ∧
    (∀ f, clear f (cancellation_signal_slot (LSig 0)) m' = Undefined) ∧
    (∀ f, emit (S f) (LSig 0) m' = Undefined).
Proof.
  split; [reflexivity|]. split; [exact owns_nested|].
  apply (proj2 (signal_destructor_releases_without_calling 2 0 nested)
           1%positive [2%positive]).
  - reflexivity.
  - exact owns_nested.
  - simpl. lia.
Defined.

Lemma sized_one_signal : sized one_signal.
Proof. intros x sz obj Hx. discriminate Hx. Defined.

Lemma recorded_size_is_block_size_witness :
  sized one_signal ∧
  match emplace 0 (impl_type 32) (cancellation_signal_slot (LSig 0)) one_signal with
  | Ok a m' =>
      sized m' ∧
      ∃ h cap, construct (impl_type 32) = Some h ∧
        heap m' !! a = Some (Block cap (Some (CancellationHandler h cap))) ∧
        (sizeof_handler (impl_type 32) ≤ cap)%N
  | Throw e m' => sized m'
  | _ => True
  end.
Proof.
  split; [exact sized_one_signal|].
  apply (proj1 (proj2 (recorded_size_is_block_size 0 (impl_type 32) 32 (LSig 0) 0
                         one_signal))).
  exact sized_one_signal.
Defined.

Lemma fitting_replacements_allocate_nothing_witness :
  load (LSig 0) occupied = Some (Some 1%positive) ∧ owns occupied 1 [] ∧
  ∃ m' evs h',
    emplace_all 1 [HandlerType 24 (Some (User 8)); HandlerType 16 (Some (User 9))]
      (cancellation_signal_slot (LSig 0)) occupied
      = Ok (replicate 2 1%positive) m' ∧
    trace m' = trace occupied ++ evs ∧ allocations evs = 0 ∧
    oracle m' = oracle occupied ∧
    load (LSig 0) m' = Some (Some 1%positive) ∧
    heap m' !! 1%positive = Some (Block 24 (Some (CancellationHandler h' 24))) ∧
    Some (User 9) = Some h'.
Proof.
  split; [reflexivity|]. split; [reflexivity|].
  apply (fitting_replacements_allocate_nothing 1
           [HandlerType 24 (Some (User 8)); HandlerType 16 (Some (User 9))]
           (LSig 0) 1 [] 24 (User 7) 24 occupied).
  - reflexivity.
  - reflexivity.
  - simpl. lia.
  - reflexivity.
  - repeat (apply Forall_cons; split; [split; [simpl; lia|reflexivity]|]).
    apply Forall_nil_2.
Defined.

Lemma emplace_then_clear_restores_witness :
  ∃ a m1,
    emplace 0 (impl_type 32) (cancellation_signal_slot (LSig 0)) one_signal = Ok a m1 ∧
    ∃ m2, clear 1 (cancellation_signal_slot (LSig 0)) m1 = Ok tt m2 ∧
      signals m2 = signals one_signal ∧ heap m2 = heap one_signal ∧
      trace m2 = trace one_signal ++ [EvNew a 32; EvDestroy a; EvDelete a].
Proof.
  eexists _, _. split; [vm_compute; reflexivity|].
  apply (emplace_then_clear_restores 0 0 (impl_type 32) (LSig 0) one_signal).
  - reflexivity.
  - vm_compute. reflexivity.
  - reflexivity.
Defined.

Lemma slot_comparison_is_an_equivalence_witness :
  slot_eq (cancellation_signal_slot (LSig 0)) (cancellation_signal_slot (LSig 0)) = true ∧
  is_connected (cancellation_signal_slot (LSig 0))
    = is_connected (cancellation_signal_slot (LSig 0)).
Proof.
  split; [reflexivity|].
  apply (proj2 (proj2 (proj2 (proj2
           (slot_comparison_is_an_equivalence
              (cancellation_signal_slot (LSig 0)) (cancellation_signal_slot (LSig 0))
              cancellation_slot_default))))).
  reflexivity.
Defined.

Lemma rebuilt_state_shares_impl_witness :
  ∃ st m1 m2,
    cancellation_state_ctor 32 0 (cancellation_signal_slot (LSig 0)) one_signal = Ok st m1 ∧
    emit 2 (LSig 0) m1 = Ok tt m2 ∧
    cancelled st m2 = Some true ∧
    ∀ f', ∃ a m3,
      impl_ st = Some a ∧
      cancellation_state_ctor 32 (S f') (cancellation_signal_slot (LSig 0)) m2 = Ok st m3 ∧
      trace m3 = trace m2 ++ [EvDestroy a] ∧
      cancelled st m3 = Some false ∧
      has_handler (state_slot st) m3 = Some false.
Proof.
  eexists _, _, _. split; [vm_compute; reflexivity|].
  split; [vm_compute; reflexivity|].
  eapply (rebuilt_state_shares_impl 32 0 (LSig 0) one_signal).
  - reflexivity.
  - vm_compute. reflexivity.
  - instantiate (1 := 2). vm_compute. reflexivity.
Defined.

Lemma emit_reaches_innermost_handler_witness :
  ∃ states m1 st b m2,
    build_chain 32 0 2 (cancellation_signal_slot (LSig 0)) one_signal = Ok states m1 ∧
    last states = Some st ∧
    emplace 0 (HandlerType 24 (Some (User 7))) (state_slot st) m1 = Ok b m2 ∧
    Forall (λ s, cancelled s m2 = Some false) states ∧
    ∀ f, 3 < f →
      ∃ m3 evs, emit f (LSig 0) m2 = Ok tt m3 ∧
        trace m3 = trace m2 ++ evs ∧
        calls b evs = 1 ∧
        has_handler (state_slot st) m3 = Some true ∧
        Forall (λ s, cancelled s m3 = Some true) states.
Proof.
  eexists _, _, _, _, _. split; [vm_compute; reflexivity|].
  split; [vm_compute; reflexivity|]. split; [vm_compute; reflexivity|].
  eapply (emit_reaches_innermost_handler 32 0 0 1 (HandlerType 24 (Some (User 7)))
            (LSig 0) one_signal).
  - reflexivity.
  - vm_compute. reflexivity.
  - vm_compute. reflexivity.
  - vm_compute. reflexivity.
  - reflexivity.
Defined.

Lemma clear_releases_every_state_witness :
  ∃ states m1,
    build_chain 32 0 2 (cancellation_signal_slot (LSig 0)) one_signal = Ok states m1 ∧
    ∃ m2, clear 2 (cancellation_signal_slot (LSig 0)) m1 = Ok tt m2 ∧
      signals m2 = signals one_signal ∧ heap m2 = heap one_signal ∧
      Forall (λ st, cancelled st m2 = None ∧
                    has_handler (state_slot st) m2 = None) states.
Proof.
  eexists _, _. split; [vm_compute; reflexivity|].
  eapply (clear_releases_every_state 32 0 1 (LSig 0) one_signal).
  - reflexivity.
  - vm_compute. reflexivity.
  - lia.
Defined.

Lemma emit_on_state_slot_spares_the_state_witness :
  owns nested 1 [2%positive] ∧
  ∃ m' evs, emit 2 (LImpl 1) nested = Ok tt m' ∧
    slot_handler_ (state_slot (State (Some 1%positive))) = Some (LImpl 1) ∧
    trace m' = trace nested ++ evs ∧
    calls 2 evs = 1 ∧ calls 1 evs = 0 ∧
    cancelled (State (Some 1%positive)) m' = cancelled (State (Some 1%positive)) nested.
Proof.
  split; [exact owns_nested|].
  apply (emit_on_state_slot_spares_the_state 2 (State (Some 1%positive)) 1 2 [] nested).
  - reflexivity.
  - exact owns_nested.
  - simpl. lia.
Defined.

Lemma cancelled_survives_every_emission_witness :
  cancelled (State (Some 1%positive)) latched = Some true ∧
  ∃ m', emit 2 (LSig 0) latched = Ok tt m' ∧
    cancelled (State (Some 1%positive)) m' = Some true.
Proof.
  split; [reflexivity|]. eexists. split; [vm_compute; reflexivity|].
  apply (cancelled_survives_every_emission 2 (LSig 0) (State (Some 1%positive)) latched).
  - reflexivity.
  - vm_compute. reflexivity.
Defined.

Lemma clear_and_emplace_call_nothing_witness :
  ∃ m', clear 2 (cancellation_signal_slot (LSig 0)) nested = Ok tt m' ∧
    ∃ evs, trace m' = trace nested ++ evs ∧
      (∀ b, calls b evs = 0) ∧ (∀ l', emissions l' evs = 0).
Proof.
  eexists. split; [vm_compute; reflexivity|].
  apply (proj1 (clear_and_emplace_call_nothing 2 (impl_type 32) (LSig 0) nested)).
  vm_compute. reflexivity.
Defined.

Lemma emit_only_calls_witness :
  ∃ m', emit 3 (LSig 0) nested = Ok tt m' ∧
    signals m' = signals nested ∧ oracle m' = oracle nested ∧
    dom (heap m') = dom (heap nested) ∧
    (∀ l', load l' m' = load l' nested) ∧
    ∃ evs, trace m' = trace nested ++ evs ∧
      Forall (λ e, (∃ l', e = EvEmit l') ∨ (∃ a, e = EvCall a)) evs.
Proof.
  eexists. split; [vm_compute; reflexivity|].
  apply (emit_only_calls 3 (LSig 0) nested). vm_compute. reflexivity.
Defined.
